(** * dcyfr-ai-graphql: the keyed rate limiter and the batching data loader

    A shallow embedding of [src/middleware/rate-limit.ts] and
    [src/dataloaders/loader.ts], with the properties the specification
    states about them.

    Conventions of the embedding:
    - a JavaScript [Map] is a [gmap]; the claims below never depend on the
      iteration order of a map;
    - the numbers of the limiter are the integers ([Z]) and [NaN]:
      [Date.now()] is integral, and the [parseInt]-ed configuration is
      integral or, for an empty or malformed variable, [NaN];
    - [Date.now()] is an explicit argument [now] of every limiter method;
    - methods that read or write instance fields are computations in a
      small state monad over the instance. *)

From stdpp Require Import gmap strings list fin_maps pretty sorting.
From Stdlib Require Import ZArith Lia.

(** ** A state monad for methods of a stateful instance *)

Definition method (S A : Type) : Type := S → A * S.

Global Instance method_mret {S} : MRet (method S) := λ A a s, (a, s).
Global Instance method_bind {S} : MBind (method S) :=
  λ A B k m s, let (a, s') := m s in k a s'.

Definition get {S} : method S S := λ s, (s, s).
Definition put {S} (s : S) : method S unit := λ _, (tt, s).

(** The value a method returns, and the instance it leaves behind. *)
Definition result {S A} (m : method S A) (s : S) : A := fst (m s).
Definition after {S A} (m : method S A) (s : S) : S := snd (m s).

(** ** The rate limiter ([src/middleware/rate-limit.ts]) *)

Module RateLimit.
Open Scope Z_scope.

(** The numbers of the limiter: the integers, and [NaN]. [Date.now()] and
    the counts are integers; [windowMs] and [maxRequests] come from
    [parseInt] ([src/config/env.ts]), which yields an integer or, for an
    empty or malformed variable, [NaN]; [resetAt = now + windowMs] is then
    [NaN] as well. *)
Inductive number :=
  | NaN
  | Num (z : Z).

(** [a + b] and [a - b]: [NaN] as soon as an operand is [NaN]. *)
Definition js_add (a b : number) : number :=
  match a, b with
  | Num x, Num y => Num (x + y)
  | _, _ => NaN
  end.

Definition js_sub (a b : number) : number :=
  match a, b with
  | Num x, Num y => Num (x - y)
  | _, _ => NaN
  end.

(** [a > b], [a >= b] and [a < b]: [false] as soon as an operand is [NaN]. *)
Definition js_gt (a b : number) : bool :=
  match a, b with
  | Num x, Num y => x >? y
  | _, _ => false
  end.

Definition js_ge (a b : number) : bool :=
  match a, b with
  | Num x, Num y => x >=? y
  | _, _ => false
  end.

Definition js_lt (a b : number) : bool :=
  match a, b with
  | Num x, Num y => x <? y
  | _, _ => false
  end.

(** [Math.max(a, b)]: [NaN] as soon as an argument is [NaN]. *)
Definition Math_max (a b : number) : number :=
  match a, b with
  | Num x, Num y => Num (Z.max x y)
  | _, _ => NaN
  end.

Global Arguments js_add : simpl never.
Global Arguments js_sub : simpl never.
Global Arguments js_gt : simpl never.
Global Arguments js_ge : simpl never.
Global Arguments js_lt : simpl never.
Global Arguments Math_max : simpl never.

Record RateLimitConfig := { windowMs : number; maxRequests : number }.

(** [count] is only ever set to [1] and incremented: an integer. *)
Record RateLimitEntry := { count : Z; resetAt : number }.

(** An instance of the class: its two private fields. *)
Record RateLimiter := {
  entries : gmap string RateLimitEntry;
  config : RateLimitConfig
}.

(** [new RateLimiter(config)] *)
Definition new (cfg : RateLimitConfig) : RateLimiter :=
  {| entries := ∅; config := cfg |}.

Definition set_entries (m : gmap string RateLimitEntry) (this : RateLimiter)
  : RateLimiter :=
  {| entries := m; config := config this |}.

Definition read_entry (key : string) : method RateLimiter (option RateLimitEntry) :=
  (this ← get; mret (entries this !! key)).

Definition write_entry (key : string) (e : RateLimitEntry) : method RateLimiter unit :=
  (this ← get; put (set_entries (<[key := e]> (entries this)) this)).

Definition read_config : method RateLimiter RateLimitConfig :=
  (this ← get; mret (config this)).

(** The guard [!entry || now > entry.resetAt] shared by [check] and
    [remaining]: the entry that is still in force at [now], if any. *)
Definition in_force (now : Z) (entry : option RateLimitEntry)
  : option RateLimitEntry :=
  match entry with
  | None => None
  | Some e => if js_gt (Num now) (resetAt e) then None else Some e
  end.

(** [check(key)], with [now = Date.now()]. The increment [entry.count++]
    mutates the object held by the map, which is a write to the map at
    [key]. *)
Definition check (key : string) (now : Z) : method RateLimiter bool :=
  (cfg ← read_config;
   entry ← read_entry key;
   match in_force now entry with
   | None =>
       write_entry key {| count := 1;
                          resetAt := js_add (Num now) (windowMs cfg) |};;
       mret true
   | Some e =>
       if js_ge (Num (count e)) (maxRequests cfg) then mret false
       else
         write_entry key {| count := count e + 1; resetAt := resetAt e |};;
         mret true
   end).

(** [remaining(key)], with [now = Date.now()]. *)
Definition remaining (key : string) (now : Z) : method RateLimiter number :=
  (cfg ← read_config;
   entry ← read_entry key;
   match in_force now entry with
   | None => mret (maxRequests cfg)
   | Some e => mret (Math_max (Num 0) (js_sub (maxRequests cfg) (Num (count e))))
   end).

(** [cleanup()], with [now = Date.now()]: the loop visits every entry of the
    map and deletes the visited key from it when its window has passed. *)
Definition cleanup (now : Z) : method RateLimiter unit :=
  (this ← get;
   put (set_entries
          (map_fold (λ key entry acc,
                       if js_gt (Num now) (resetAt entry)
                       then delete key acc else acc)
                    (entries this) (entries this))
          this)).

(** Calls a client can make on a limiter, and the states they lead to. *)
Inductive call :=
  | Check (key : string) (now : Z)
  | Remaining (key : string) (now : Z)
  | Cleanup (now : Z).

Definition exec (c : call) (this : RateLimiter) : RateLimiter :=
  match c with
  | Check key now => after (check key now) this
  | Remaining key now => after (remaining key now) this
  | Cleanup now => after (cleanup now) this
  end.

Inductive reachable (cfg : RateLimitConfig) : RateLimiter → Prop :=
  | reachable_new : reachable cfg (new cfg)
  | reachable_exec c this :
      reachable cfg this → reachable cfg (exec c this).

(** A window is expired at [now] once [now > resetAt]; a window whose
    [resetAt] is [NaN] never is. *)
Definition expired (now : Z) (e : RateLimitEntry) : Prop :=
  js_gt (Num now) (resetAt e) = true.

(** The invariant behind the bound on [count]. *)
Definition counts_within (cfg : RateLimitConfig) (this : RateLimiter) : Prop :=
  config this = cfg ∧
  ∀ key e, entries this !! key = Some e →
    1 ≤ count e ∧ js_ge (maxRequests cfg) (Num (count e)) = true.

(** The limiter of the behavioural tests, one whose quota is zero, and one
    whose quota is [NaN] ([RATE_LIMIT_MAX_REQUESTS] set but not a number). *)
Definition test_config : RateLimitConfig :=
  {| windowMs := Num 60000; maxRequests := Num 3 |}.
Definition zero_quota_config : RateLimitConfig :=
  {| windowMs := Num 60000; maxRequests := Num 0 |}.
Definition zero_quota_checked : RateLimiter :=
  exec (Check "ip1" 0) (new zero_quota_config).
Definition nan_quota_config : RateLimitConfig :=
  {| windowMs := Num 60000; maxRequests := NaN |}.
Definition nan_quota_checked : RateLimiter :=
  exec (Check "ip1" 0) (new nan_quota_config).
Definition nan_window_config : RateLimitConfig :=
  {| windowMs := NaN; maxRequests := Num 3 |}.
Definition cleanup_scene : RateLimiter :=
  exec (Check "young" 20) (exec (Check "old" 15) (exec (Check "old" 10)
    (new test_config))).
Definition test_exhausted : RateLimiter :=
  exec (Check "ip1" 30) (exec (Check "ip1" 20) (exec (Check "ip1" 10)
    (new test_config))).

End RateLimit.

(** ** The batching data loader ([src/dataloaders/loader.ts]) *)

Module Loader.

(** Runtime values that flow through a loader: what the batch function
    returns in a result slot, or throws. [Error message] is an instance of
    [Error]; [Data d] is any other object or number. *)
Inductive value (D : Type) :=
  | Undefined
  | Null
  | Str (s : string)
  | Data (d : D)
  | Error (message : string).
Arguments Undefined {D}.
Arguments Null {D}.
Arguments Str {D} s.
Arguments Data {D} d.
Arguments Error {D} message.

(** [v instanceof Error] *)
Definition instanceof_Error {D} (v : value D) : bool :=
  match v with
  | Error _ => true
  | _ => false
  end.

(** The state of a promise. *)
Inductive promise (D : Type) :=
  | Pending
  | Fulfilled (v : value D)
  | Rejected (reason : value D).
Arguments Pending {D}.
Arguments Fulfilled {D} v.
Arguments Rejected {D} reason.

Definition settled {D} (p : promise D) : bool :=
  match p with
  | Pending => false
  | _ => true
  end.

(** A promise is named by its address in the store of promises; the store
    grows at its end. *)
Abbreviation handle := nat.

(** An element of [batch]: [{ key, resolve, reject }]. The two functions
    are the settling functions of one promise, [target]. *)
Record item (K : Type) := { key : K; target : handle }.
Arguments key {K} i.
Arguments target {K} i.

(** What [await batchFn(keys)] comes back with: the array the call
    resolves to, as the type of [batchFn] has it, or the value it throws or
    rejects with. Values are plain: none of them is itself a promise. *)
Inductive completion (D : Type) :=
  | Returned (results : list (value D))
  | Threw (error : value D).
Arguments Returned {D} results.
Arguments Threw {D} error.

(** The closure of [createDataLoader]: [cache], [batch], [scheduled], and
    what the run-time system holds for it: the promises made by [load],
    the dispatch callbacks given to [queueMicrotask] and not yet run, the
    dispatch callbacks suspended at [await] (each with its [currentBatch]),
    and the arguments of the calls made to [batchFn] so far. *)
Record loader (K D : Type) := {
  cache : gmap string handle;
  batch : list (item K);
  scheduled : bool;
  promises : list (promise D);
  microtasks : nat;
  awaiting : list (list (item K));
  invoked : list (list K)
}.
Arguments cache {K D} l.
Arguments batch {K D} l.
Arguments scheduled {K D} l.
Arguments promises {K D} l.
Arguments microtasks {K D} l.
Arguments awaiting {K D} l.
Arguments invoked {K D} l.

Section Loader.
Context {K D : Type}.

(** [JSON.stringify] on keys and [String] on thrown values. *)
Variable stringify : K → string.
Variable js_String : value D → string.

Local Abbreviation loader := (loader K D).
Local Abbreviation item := (item K).

(** [createDataLoader(batchFn)] *)
Definition createDataLoader : loader :=
  {| cache := ∅; batch := []; scheduled := false; promises := [];
     microtasks := 0; awaiting := []; invoked := [] |}.

(** *** Settling a promise: a settled promise never changes again *)

Definition settle (h : handle) (p : promise D) (ps : list (promise D))
  : list (promise D) :=
  match ps !! h with
  | Some Pending => <[h := p]> ps
  | _ => ps
  end.

Definition resolve (it : item) (v : value D) := settle (target it) (Fulfilled v).
Definition reject (it : item) (e : value D) := settle (target it) (Rejected e).

(** *** [schedule] and [load] *)

Definition schedule : method loader unit :=
  this ← get;
  if scheduled this then mret tt
  else
    put {| cache := cache this; batch := batch this; scheduled := true;
           promises := promises this; microtasks := S (microtasks this);
           awaiting := awaiting this; invoked := invoked this |}.

(** [new Promise(executor)]: the new promise is pending and is the last of
    the store. *)
Definition new_Promise : method loader handle :=
  this ← get;
  put {| cache := cache this; batch := batch this;
         scheduled := scheduled this;
         promises := promises this ++ [Pending];
         microtasks := microtasks this; awaiting := awaiting this;
         invoked := invoked this |};;
  mret (length (promises this)).

(** [batch.push(it)] *)
Definition batch_push (it : item) : method loader unit :=
  this ← get;
  put {| cache := cache this; batch := batch this ++ [it];
         scheduled := scheduled this; promises := promises this;
         microtasks := microtasks this; awaiting := awaiting this;
         invoked := invoked this |}.

Definition set_cache (c : gmap string handle) : method loader unit :=
  this ← get;
  put {| cache := c; batch := batch this; scheduled := scheduled this;
         promises := promises this; microtasks := microtasks this;
         awaiting := awaiting this; invoked := invoked this |}.

(** [load(key)]. A promise is an object, hence truthy: [if (cached)] holds
    exactly when the cache has an entry. The executor of the new promise
    runs at once, before the promise is stored in the cache. *)
Definition load (key : K) : method loader handle :=
  this ← get;
  let cacheKey := stringify key in
  match cache this !! cacheKey with
  | Some cached => mret cached
  | None =>
      promise ← new_Promise;
      batch_push {| key := key; target := promise |};;
      schedule;;
      this ← get;
      set_cache (<[cacheKey := promise]> (cache this));;
      mret promise
  end.

(** Several [load]s in a row, as issued inside one unit of synchronous
    work (this is what [loadMany] does to the loader); the handles come
    back in the order of the keys. *)
Fixpoint loads (keys : list K) : method loader (list handle) :=
  match keys with
  | [] => mret []
  | key :: rest => h ← load key; hs ← loads rest; mret (h :: hs)
  end.

(** [clear(key)] and [clearAll()] *)
Definition clear (key : K) : method loader unit :=
  this ← get;
  set_cache (delete (stringify key) (cache this)).

Definition clearAll : method loader unit := set_cache ∅.

(** *** The dispatch callback *)

(** Its first part, from the start of the microtask to the call of
    [batchFn]: it returns the keys [batchFn] is called with and suspends
    with [currentBatch] until the call completes. *)
Definition dispatch : method loader (list K) :=
  this ← get;
  let currentBatch := batch this in
  let keys := key <$> currentBatch in
  put {| cache := cache this; batch := []; scheduled := false;
         promises := promises this; microtasks := pred (microtasks this);
         awaiting := awaiting this ++ [currentBatch];
         invoked := invoked this ++ [keys] |};;
  mret keys.

(** The [for] loop of the [try] block: slot [i] of [results] settles item
    [i] of [currentBatch]; a missing slot reads as [undefined]. *)
Definition settle_results (results : list (value D)) (currentBatch : list item)
    (ps : list (promise D)) : list (promise D) :=
  foldl (λ ps i,
           match currentBatch !! i with
           | Some it =>
               let result := default Undefined (results !! i) in
               if instanceof_Error result then reject it result ps
               else resolve it result ps
           | None => ps
           end)
        ps (seq 0 (length currentBatch)).

(** [error instanceof Error ? error : new Error(String(error))] *)
Definition as_Error (error : value D) : value D :=
  if instanceof_Error error then error else Error (js_String error).

(** The [for] loop of the [catch] block. *)
Definition reject_all (error : value D) (currentBatch : list item)
    (ps : list (promise D)) : list (promise D) :=
  foldl (λ ps it, reject it (as_Error error) ps) ps currentBatch.

Definition settle_batch (c : completion D) (currentBatch : list item)
    (ps : list (promise D)) : list (promise D) :=
  match c with
  | Returned results => settle_results results currentBatch ps
  | Threw error => reject_all error currentBatch ps
  end.

(** Its second part: the callback that is [n]-th among the suspended ones
    resumes with the completion [c] of its call of [batchFn]. *)
Definition resume (n : nat) (c : completion D) : method loader unit :=
  this ← get;
  match awaiting this !! n with
  | None => mret tt
  | Some currentBatch =>
      put {| cache := cache this; batch := batch this;
             scheduled := scheduled this;
             promises := settle_batch c currentBatch (promises this);
             microtasks := microtasks this;
             awaiting := delete n (awaiting this);
             invoked := invoked this |}
  end.

(** *** Runs of a loader *)

Inductive event :=
  | Load (key : K)
  | Clear (key : K)
  | ClearAll
  | Dispatch
  | Resume (n : nat) (c : completion D).

(** [Dispatch] needs a queued microtask, [Resume n] a suspended callback. *)
Definition enabled (e : event) (this : loader) : Prop :=
  match e with
  | Dispatch => microtasks this ≠ 0
  | Resume n _ => n < length (awaiting this)
  | _ => True
  end.

Definition fire (e : event) (this : loader) : loader :=
  match e with
  | Load key => after (load key) this
  | Clear key => after (clear key) this
  | ClearAll => after clearAll this
  | Dispatch => after dispatch this
  | Resume n c => after (resume n c) this
  end.

Definition invalidates (e : event) : bool :=
  match e with
  | Clear _ | ClearAll => true
  | _ => false
  end.

Inductive reachable : loader → Prop :=
  | reachable_create : reachable createDataLoader
  | reachable_fire e this :
      reachable this → enabled e this → reachable (fire e this).

Definition run (es : list event) (this : loader) : loader :=
  foldl (λ s e, fire e s) this es.

(** Events that can be fired one after the other from [this]. *)
Fixpoint runnable (es : list event) (this : loader) : Prop :=
  match es with
  | [] => True
  | e :: es => enabled e this ∧ runnable es (fire e this)
  end.

(** The dispatch callback in full: its two parts with nothing in between,
    the call of [batchFn] completing with [c]. *)
Definition dispatched (c : completion D) (this : loader) : loader :=
  after (resume (length (awaiting this)) c) (after dispatch this).

(** An event other than a [load] of a key of the normalized form of [k]. *)
Definition leaves (k : K) (e : event) : Prop :=
  match e with
  | Load k' => stringify k' ≠ stringify k
  | _ => True
  end.

(** The loader after [clear(key)] followed by the events [es]. *)
Definition cleared (key : K) (es : list event) (this : loader) : loader :=
  run es (after (clear key) this).

(** What a caller holding handle [h] observes. *)
Definition observe (this : loader) (h : handle) : option (promise D) :=
  promises this !! h.

(** The handles whose settling functions the loader still holds. *)
Definition held (this : loader) : list handle :=
  target <$> (batch this ++ concat (awaiting this)).

(** The keys of a list whose normalized form is that of [k]. *)
Definition alike (k : K) (keys : list K) : list K :=
  filter (λ k', stringify k' = stringify k) keys.

(** An event that may come between [load]s of keys of the normalized form
    of [k] that are to share a dispatch: any event but the dispatch itself,
    [clearAll], and [clear] of a key of that form. *)
Definition before_dispatch (k : K) (e : event) : Prop :=
  match e with
  | Load _ => True
  | Clear k' => stringify k' ≠ stringify k
  | ClearAll => False
  | Dispatch => False
  | Resume _ _ => True
  end.

(** The handle an event hands to its caller: that of a [load]. *)
Definition returned (e : event) (this : loader) : option handle :=
  match e with
  | Load key => Some (result (load key) this)
  | _ => None
  end.

(** The handles handed out along a run, event by event. *)
Fixpoint handed (es : list event) (this : loader) : list (option handle) :=
  match es with
  | [] => []
  | e :: es => returned e this :: handed es (fire e this)
  end.

(** *** Notions used to state the properties *)

(** The state a result slot settles its promise to. *)
Definition slot_outcome (result : value D) : promise D :=
  if instanceof_Error result then Rejected result else Fulfilled result.

(** Settling a list of promises one after the other. *)
Definition settle_list (l : list (handle * promise D)) (ps : list (promise D))
  : list (promise D) :=
  foldl (λ ps hp, settle hp.1 hp.2 ps) ps l.

(** What one completion asks of the promises of [currentBatch]. *)
Definition requests (c : completion D) (currentBatch : list item)
  : list (handle * promise D) :=
  match c with
  | Returned results =>
      imap (λ i it, (target it, slot_outcome (default Undefined (results !! i))))
           currentBatch
  | Threw error =>
      (λ it, (target it, Rejected (as_Error error))) <$> currentBatch
  end.

(** The invariant of a loader: the promises whose settling functions it
    holds are pairwise distinct and pending, cached handles name promises
    of the store, and a dispatch callback is queued exactly when
    [scheduled] is set. *)
Record wf (this : loader) : Prop := {
  wf_held_NoDup : NoDup (held this);
  wf_held_pending : ∀ h, h ∈ held this → promises this !! h = Some Pending;
  wf_cache_bound :
    ∀ ck h, cache this !! ck = Some h → h < length (promises this);
  wf_microtasks : microtasks this = if scheduled this then 1 else 0
}.

End Loader.

(** *** A loader over numeric keys, as in the tests of the specification *)

(** [JSON.stringify] of a number is its decimal form. *)
Definition number_key (n : nat) : string := pretty n.

Definition demo_String (v : value string) : string :=
  match v with
  | Undefined => "undefined"
  | Null => "null"
  | Str s => s
  | Data d => "[object Object]"
  | Error message => "Error: " +:+ message
  end.

Definition demo_run (es : list (event (K := nat) (D := string)))
  : loader nat string :=
  run number_key demo_String es createDataLoader.

(** [load(1); clear(1); load(1)] within one tick. *)
Definition reloaded_in_tick : loader nat string :=
  demo_run [Load 1; Clear 1; Load 1].

(** [load(1); load(2); load(3)] and the dispatch of the batch. *)
Definition three_loaded : loader nat string :=
  demo_run [Load 1; Load 2; Load 3].
Definition three_dispatched : loader nat string :=
  demo_run [Load 1; Load 2; Load 3; Dispatch].
Definition three_items : list (item nat) :=
  [{| key := 1; target := 0 |}; {| key := 2; target := 1 |};
   {| key := 3; target := 2 |}].

(** [load(1)], its dispatch, and a batch call that fails as a whole. *)
Definition failed_one : loader nat string :=
  demo_run [Load 1; Dispatch; Resume 0 (Threw (Error "down"))].

(** [load(7)] and its dispatch, whose batch call is still under way; then,
    within one tick: [load(1)], [clear(7)], the completion of the batch call
    for [7], [load(2)], and [load(1)] again. *)
Definition seven_under_way : loader nat string :=
  demo_run [Load 7; Dispatch].
Definition busy_tick : list (event (K := nat) (D := string)) :=
  [Load 1; Clear 7; Resume 0 (Returned [Str "seven"]); Load 2; Load 1].

End Loader.

(** ** Uses of the rate limiter *)

Module RateLimitUse.
Import RateLimit.
Open Scope Z_scope.

(** [createRateLimiter(config)]: a new limiter. The interval timer it starts
    calls [cleanup] every five minutes: these are [Cleanup] calls, at the
    times the timer fires, among the calls made on the limiter. *)
Definition createRateLimiter (cfg : RateLimitConfig) : RateLimiter := new cfg.

(** A burst of requests of one identity: [check key] at each of the times,
    one after the other; the decisions come back in that order. *)
Fixpoint checks (key : string) (times : list Z)
  : method RateLimiter (list bool) :=
  match times with
  | [] => mret []
  | now :: rest => ok ← check key now; oks ← checks key rest; mret (ok :: oks)
  end.

(** What a call answers to its caller. *)
Inductive answer :=
  | Decision (allowed : bool)
  | Quota (left : number).

Definition time_of (c : call) : Z :=
  match c with
  | Check _ now | Remaining _ now | Cleanup now => now
  end.

Definition is_cleanup (c : call) : bool :=
  match c with
  | Cleanup _ => true
  | _ => false
  end.

(** The answers the callers of [check] and [remaining] get along a sequence
    of calls; [cleanup] answers nothing. *)
Fixpoint answers (cs : list call) (this : RateLimiter) : list answer :=
  match cs with
  | [] => []
  | Check key now :: rest =>
      Decision (result (check key now) this)
        :: answers rest (exec (Check key now) this)
  | Remaining key now :: rest =>
      Quota (result (remaining key now) this)
        :: answers rest (exec (Remaining key now) this)
  | Cleanup now :: rest => answers rest (exec (Cleanup now) this)
  end.

(** Two limiters that cannot be told apart by calls made at [t0] or later:
    same configuration and, for every identity, the same window in force at
    every such time. *)
Definition alike_from (t0 : Z) (a b : RateLimiter) : Prop :=
  config a = config b
  ∧ ∀ key t, t0 ≤ t →
      in_force t (entries a !! key) = in_force t (entries b !! key).

(** A day of traffic on the limiter of the tests, with the timer firing. *)
Definition traffic : list call :=
  [Check "ip1" 10; Check "ip1" 20; Cleanup 25; Check "ip2" 30;
   Remaining "ip1" 40; Check "ip1" 50; Check "ip1" 60; Cleanup 70000;
   Check "ip1" 70010; Remaining "ip2" 70020].

End RateLimitUse.

(** ** More of the data loader: [loadMany], and what a loader accounts for *)

Module LoaderUse.
Import Loader.

Section LoaderUse.
Context {K D : Type}.
Variable stringify : K → string.
Variable js_String : value D → string.

Local Abbreviation loader := (loader K D).
Local Abbreviation item := (item K).

(** [p.catch((error) => error instanceof Error ? error : new
    Error(String(error)))]: the handler returns, so the new promise is
    pending or fulfilled, never rejected; [None] is pending, [Some v] is
    fulfilled with [v]. *)
Definition caught (p : promise D) : option (value D) :=
  match p with
  | Pending => None
  | Fulfilled v => Some v
  | Rejected error => Some (as_Error js_String error)
  end.

(** [Promise.all] of promises that are pending or fulfilled: pending while
    one of them is, then fulfilled with the array of their values, in the
    order of the promises. *)
Definition Promise_all (ps : list (option (value D)))
  : option (list (value D)) :=
  mapM id ps.

(** [loadMany(keys)]: [keys.map] calls [load] on the keys in order; what is
    returned here are the handles of those loads, and [loadMany_outcome]
    is the state of the promise [loadMany] returns, read off the states of
    these handles. *)
Definition loadMany (keys : list K) : method loader (list handle) :=
  loads stringify keys.

Definition loadMany_outcome (hs : list handle) (this : loader)
  : option (list (value D)) :=
  Promise_all ((λ h, observe this h ≫= caught) <$> hs).

(** All the keys the loader has taken up so far: those passed to the batch
    function, call after call, then those of the queue. *)
Definition requested (this : loader) : list K :=
  concat (invoked this) ++ (key <$> batch this).

(** The keys an event adds to the requested ones: the key of a [load] that
    misses the cache, and nothing else. *)
Definition taken_up (e : event (K := K) (D := D)) (this : loader) : list K :=
  match e with
  | Load k =>
      match cache this !! stringify k with
      | Some _ => []
      | None => [k]
      end
  | _ => []
  end.

(** What holds of every reachable loader besides [wf]: a dispatch is
    scheduled exactly when the queue is not empty, the batch function was
    never called without keys, every pending promise is held by the queue
    or by a suspended dispatch, and the promise with handle [h] was made
    for the [h]-th requested key. *)
Record accounted (this : loader) : Prop := {
  acc_scheduled : scheduled this = true ↔ batch this ≠ [];
  acc_invoked : Forall (λ keys, keys ≠ []) (invoked this);
  acc_pending : ∀ h, promises this !! h = Some Pending → h ∈ held this;
  acc_length : length (requested this) = length (promises this);
  acc_keys :
    ∀ it, it ∈ batch this ++ concat (awaiting this) →
          requested this !! target it = Some (key it)
}.

(** The normalized key of a request. *)
Definition form (it : item) : string := stringify (key it).

End LoaderUse.

End LoaderUse.

(** ** The in-memory store behind the loaders, and [createDataLoaders] *)

Module Store.
Import Loader.

(** Dates are their [getTime()], in milliseconds. *)
Inductive UserRole := ADMIN | USER | GUEST.

Record User := {
  user_id : string;
  email : string;
  name : string;
  role : UserRole;
  bio : option string;
  user_createdAt : Z;
  user_updatedAt : Z
}.

(** [User & { passwordHash: string }] *)
Record StoredUser := { profile : User; passwordHash : string }.

Record Post := {
  post_id : string;
  title : string;
  post_content : string;
  published : bool;
  post_authorId : string;
  tags : list string;
  post_createdAt : Z;
  post_updatedAt : Z
}.

Record Comment := {
  comment_id : string;
  content : string;
  authorId : string;
  postId : string;
  createdAt : Z
}.

(** *** A [Map] whose order of insertion matters *)

Section OrderedMap.
Context {V : Type}.

Fixpoint Map_get (k : string) (m : list (string * V)) : option V :=
  match m with
  | [] => None
  | (k', v) :: rest => if decide (k' = k) then Some v else Map_get k rest
  end.

(** [m.set(k, v)]: a key that is present keeps its place. *)
Fixpoint Map_set (k : string) (v : V) (m : list (string * V))
  : list (string * V) :=
  match m with
  | [] => [(k, v)]
  | (k', v') :: rest =>
      if decide (k' = k) then (k, v) :: rest else (k', v') :: Map_set k v rest
  end.

Definition Map_delete (k : string) (m : list (string * V))
  : list (string * V) :=
  filter (λ kv, kv.1 ≠ k) m.

Definition Map_values (m : list (string * V)) : list V := m.*2.

End OrderedMap.

(** The fields of [InMemoryDB]. The order of [users] and [posts] plays no
    part in the functions below; that of [comments] does. *)
Record InMemoryDB := {
  users : gmap string StoredUser;
  posts : gmap string Post;
  comments : list (string * Comment);
  idCounter : nat
}.

Definition set_users (m : gmap string StoredUser) : method InMemoryDB unit :=
  this ← get;
  put {| users := m; posts := posts this; comments := comments this;
         idCounter := idCounter this |}.

Definition set_posts (m : gmap string Post) : method InMemoryDB unit :=
  this ← get;
  put {| users := users this; posts := m; comments := comments this;
         idCounter := idCounter this |}.

Definition set_comments (m : list (string * Comment))
  : method InMemoryDB unit :=
  this ← get;
  put {| users := users this; posts := posts this; comments := m;
         idCounter := idCounter this |}.

(** [nextId()]: [`id_${++this.idCounter}`] *)
Definition nextId : method InMemoryDB string :=
  this ← get;
  put {| users := users this; posts := posts this;
         comments := comments this; idCounter := S (idCounter this) |};;
  mret ("id_" +:+ pretty (S (idCounter this))).

(** [seed()], with [now = new Date()]. *)
Definition seed (now : Z) : method InMemoryDB unit :=
  user1Id ← nextId;
  user2Id ← nextId;
  adminId ← nextId;
  this ← get;
  set_users
    (<[adminId :=
         {| profile := {| user_id := adminId; email := "admin@example.com";
                          name := "Admin"; role := ADMIN; bio := None;
                          user_createdAt := now; user_updatedAt := now |};
            passwordHash := "hashed_admin_password" |}]>
     (<[user2Id :=
          {| profile := {| user_id := user2Id; email := "bob@example.com";
                           name := "Bob Smith"; role := USER;
                           bio := Some "DevOps engineer";
                           user_createdAt := now; user_updatedAt := now |};
             passwordHash := "hashed_password_2" |}]>
      (<[user1Id :=
           {| profile := {| user_id := user1Id; email := "alice@example.com";
                            name := "Alice Johnson"; role := USER;
                            bio := Some "Full-stack developer";
                            user_createdAt := now; user_updatedAt := now |};
              passwordHash := "hashed_password_1" |}]>
       (users this))));;
  post1Id ← nextId;
  post2Id ← nextId;
  this ← get;
  set_posts
    (<[post2Id :=
         {| post_id := post2Id; title := "Advanced TypeScript Patterns";
            post_content :=
              "TypeScript offers powerful type-level programming...";
            published := true; post_authorId := user2Id;
            tags := ["typescript"; "advanced"];
            post_createdAt := now; post_updatedAt := now |}]>
     (<[post1Id :=
          {| post_id := post1Id; title := "Getting Started with GraphQL";
             post_content := "GraphQL is a query language for APIs...";
             published := true; post_authorId := user1Id;
             tags := ["graphql"; "tutorial"];
             post_createdAt := now; post_updatedAt := now |}]>
      (posts this)));;
  comment1Id ← nextId;
  this ← get;
  set_comments
    (Map_set comment1Id
       {| comment_id := comment1Id; content := "Great article!";
          authorId := user2Id; postId := post1Id; createdAt := now |}
       (comments this)).

(** [new InMemoryDB()] *)
Definition new_InMemoryDB (now : Z) : InMemoryDB :=
  after (seed now)
    {| users := ∅; posts := ∅; comments := []; idCounter := 0 |}.

(** *** The reads the loaders use *)

(** [findUsersByIds(ids)]: [null] for an unknown id, and otherwise the
    user without its [passwordHash]. *)
Definition findUsersByIds (ids : list string) (this : InMemoryDB)
  : list (option User) :=
  (λ id, match users this !! id with
         | None => None
         | Some user => Some (profile user)
         end) <$> ids.

(** [findPostsByIds(ids)] *)
Definition findPostsByIds (ids : list string) (this : InMemoryDB)
  : list (option Post) :=
  (λ id, posts this !! id) <$> ids.

(** [Array.prototype.sort] with the comparator
    [(a, b) => a.createdAt.getTime() - b.createdAt.getTime()]: ascending in
    [createdAt], and stable, as the language requires. *)
Fixpoint insert_by_createdAt (c : Comment) (l : list Comment) : list Comment :=
  match l with
  | [] => [c]
  | c' :: rest =>
      if (createdAt c <=? createdAt c')%Z then c :: c' :: rest
      else c' :: insert_by_createdAt c rest
  end.

Definition sort_by_createdAt (l : list Comment) : list Comment :=
  foldr insert_by_createdAt [] l.

Definition not_later (a b : Comment) : Prop := (createdAt a ≤ createdAt b)%Z.

(** [getCommentsByPost(postId)] *)
Definition getCommentsByPost (postId' : string) (this : InMemoryDB)
  : list Comment :=
  sort_by_createdAt
    (filter (λ c, postId c = postId') (Map_values (comments this))).

(** [getCommentsByPostIds(postIds)]: only [get] is used on the [Map] that
    is returned. *)
Definition getCommentsByPostIds (postIds : list string) (this : InMemoryDB)
  : gmap string (list Comment) :=
  foldl (λ result postId', <[postId' := getCommentsByPost postId' this]> result)
        ∅ postIds.

(** *** [deletePost] *)

(** [deletePost(id)]: the loop deletes, by its key, every comment of the
    post; then the post is deleted, and the answer is whether it was
    there. *)
Definition deletePost (id : string) : method InMemoryDB bool :=
  this ← get;
  set_comments
    (foldl (λ m entry,
              if decide (postId entry.2 = id) then Map_delete entry.1 m else m)
           (comments this) (comments this));;
  this ← get;
  set_posts (delete id (posts this));;
  mret (bool_decide (is_Some (posts this !! id))).

(** *** [createDataLoaders]: the three batch functions *)

(** A value that may be [null]. *)
Definition nullable {D} (o : option D) : value D :=
  match o with
  | None => Null
  | Some d => Data d
  end.

(** [async (ids) => userService.findByIds(ids)], where [findByIds] is
    [db.findUsersByIds]: the call reads the store as it is when the
    dispatch makes it, and does not throw. *)
Definition userLoader_batchFn (db : InMemoryDB) (ids : list string)
  : completion User :=
  Returned (nullable <$> findUsersByIds ids db).

Definition postLoader_batchFn (db : InMemoryDB) (ids : list string)
  : completion Post :=
  Returned (nullable <$> findPostsByIds ids db).

(** [commentsMap = await commentService.getByPostIds(postIds);
    return postIds.map((id) => commentsMap.get(id) ?? [])] *)
Definition commentsByPostLoader_batchFn (db : InMemoryDB)
    (postIds : list string) : completion (list Comment) :=
  Returned ((λ id, Data (default [] (getCommentsByPostIds postIds db !! id)))
              <$> postIds).

(** The store of the server at its start, and three more comments. *)
Definition seeded : InMemoryDB := new_InMemoryDB 1000.
Definition discussed : InMemoryDB :=
  {| users := users seeded; posts := posts seeded;
     comments :=
       comments seeded
       ++ [("id_7", {| comment_id := "id_7"; content := "Thanks";
                       authorId := "id_1"; postId := "id_4";
                       createdAt := 3000 |});
           ("id_8", {| comment_id := "id_8"; content := "First!";
                       authorId := "id_3"; postId := "id_5";
                       createdAt := 2000 |});
           ("id_9", {| comment_id := "id_9"; content := "Agreed";
                       authorId := "id_3"; postId := "id_4";
                       createdAt := 2000 |})];
     idCounter := 9 |}.

(** [JSON.stringify] of a string that has no character to escape, and
    [String] of a value. *)
Definition quoted (s : string) : string :=
  String (Ascii.ascii_of_nat 34) (s +:+ String (Ascii.ascii_of_nat 34) EmptyString).

Definition plain_String {D} (v : value D) : string :=
  match v with
  | Undefined => "undefined"
  | Null => "null"
  | Str s => s
  | Data _ => "[object Object]"
  | Error message => "Error: " +:+ message
  end.

(** A loader whose requests for a stored and for an unknown id are at the
    batch function. *)
Definition asked (D : Type) (id : string) : loader string D :=
  run quoted plain_String [Load id; Load "id_404"; Dispatch] createDataLoader.
Definition asked_items (id : string) : list (item string) :=
  [{| key := id; target := 0 |}; {| key := "id_404"; target := 1 |}].

End Store.

(** * Properties *)

(** ** The rate limiter *)

Module RateLimitFacts.
Import RateLimit.
Open Scope Z_scope.

(** Closed goals over concrete limiters are settled by evaluation. *)
Local Ltac evaluate := vm_compute; first [reflexivity | discriminate].

(** The comparisons on integers. *)
Lemma js_gt_Num x y : js_gt (Num x) (Num y) = true ↔ y < x.
Proof. unfold js_gt. destruct (Z.gtb_spec x y); split; (done || lia). Qed.

Lemma js_gt_Num_false x y : js_gt (Num x) (Num y) = false ↔ x ≤ y.
Proof. unfold js_gt. destruct (Z.gtb_spec x y); split; (done || lia). Qed.

Lemma js_ge_Num x y : js_ge (Num x) (Num y) = true ↔ y ≤ x.
Proof. unfold js_ge. destruct (Z.geb_spec x y); split; (done || lia). Qed.

Lemma js_ge_Num_false x y : js_ge (Num x) (Num y) = false ↔ x < y.
Proof. unfold js_ge. destruct (Z.geb_spec x y); split; (done || lia). Qed.

Lemma js_lt_Num x y : js_lt (Num x) (Num y) = true ↔ x < y.
Proof. unfold js_lt. destruct (Z.ltb_spec x y); split; (done || lia). Qed.

(** A comparison that holds has two integers. *)
Lemma js_ge_true a b :
  js_ge a b = true → ∃ x y, a = Num x ∧ b = Num y ∧ y ≤ x.
Proof.
  destruct a as [|x], b as [|y]; try done.
  intros H. exists x, y. by rewrite <- js_ge_Num.
Qed.

Lemma not_expired now e : ¬ expired now e ↔ js_gt (Num now) (resetAt e) = false.
Proof.
  unfold expired. destruct (js_gt (Num now) (resetAt e)); split; done.
Qed.

Lemma in_force_None now (o : option RateLimitEntry) :
  in_force now o = None ↔ o = None ∨ ∃ e, o = Some e ∧ expired now e.
Proof.
  unfold in_force, expired. destruct o as [e|].
  - destruct (js_gt (Num now) (resetAt e)) eqn:Hgt; split.
    + intros _. right. by exists e.
    + done.
    + done.
    + intros [? | (e' & He & ?)]; [done | injection He as <-; congruence].
  - split; [by left | done].
Qed.

Lemma in_force_Some now (o : option RateLimitEntry) e :
  in_force now o = Some e ↔ o = Some e ∧ ¬ expired now e.
Proof.
  rewrite not_expired.
  unfold in_force. destruct o as [e'|]; [|by split; [|intros []]].
  destruct (js_gt (Num now) (resetAt e')) eqn:Hgt; split.
  - done.
  - intros [[= ->] ?]. congruence.
  - by intros [= ->].
  - by intros [[= ->] _].
Qed.

(** [check] in terms of the window in force. *)
Lemma check_unfold key now this :
  check key now this =
    match in_force now (entries this !! key) with
    | None =>
        (true,
         set_entries
           (<[key := {| count := 1;
                        resetAt := js_add (Num now) (windowMs (config this)) |}]>
              (entries this)) this)
    | Some e =>
        if js_ge (Num (count e)) (maxRequests (config this)) then (false, this)
        else
          (true,
           set_entries (<[key := {| count := count e + 1;
                                    resetAt := resetAt e |}]>
                          (entries this)) this)
    end.
Proof.
  unfold check, read_config, read_entry, write_entry.
  unfold mbind, method_bind, mret, method_mret, get, put. simpl.
  destruct (in_force now (entries this !! key)) as [e|]; [|done].
  by destruct (js_ge (Num (count e)) (maxRequests (config this))).
Qed.

Lemma remaining_unfold key now this :
  remaining key now this =
    (match in_force now (entries this !! key) with
     | None => maxRequests (config this)
     | Some e =>
         Math_max (Num 0) (js_sub (maxRequests (config this)) (Num (count e)))
     end, this).
Proof.
  unfold remaining, read_config, read_entry.
  unfold mbind, method_bind, mret, method_mret, get. simpl.
  by destruct (in_force now (entries this !! key)).
Qed.

(** The loop of [cleanup], entry by entry. *)
Lemma cleanup_loop_lookup now (whole m : gmap string RateLimitEntry) key :
  map_fold (λ k entry acc,
              if js_gt (Num now) (resetAt entry) then delete k acc else acc)
           whole m !! key =
    match m !! key with
    | Some e => if js_gt (Num now) (resetAt e) then None else whole !! key
    | None => whole !! key
    end.
Proof.
  revert key.
  apply (map_fold_weak_ind (λ r m, ∀ key,
    r !! key = match m !! key with
               | Some e =>
                   if js_gt (Num now) (resetAt e) then None else whole !! key
               | None => whole !! key
               end)); clear m.
  - intros key. by rewrite lookup_empty.
  - intros i x m r Hi IH key.
    destruct (decide (i = key)) as [->|Hne].
    + rewrite lookup_insert_eq. destruct (js_gt (Num now) (resetAt x)).
      * by rewrite lookup_delete_eq.
      * by rewrite IH, Hi.
    + rewrite lookup_insert_ne by done. destruct (js_gt (Num now) (resetAt x)).
      * rewrite lookup_delete_ne by done. apply IH.
      * apply IH.
Qed.

Lemma cleanup_lookup now this key :
  entries (after (cleanup now) this) !! key =
    in_force now (entries this !! key).
Proof.
  unfold cleanup, after, mbind, method_bind, get, put. simpl.
  rewrite cleanup_loop_lookup. unfold in_force.
  by destruct (entries this !! key).
Qed.

Lemma cleanup_config now this :
  config (after (cleanup now) this) = config this.
Proof. done. Qed.

Lemma counts_within_new cfg : counts_within cfg (new cfg).
Proof. split; [done|]. intros key e. simpl. by rewrite lookup_empty. Qed.

Lemma counts_within_exec cfg c this :
  js_ge (maxRequests cfg) (Num 1) = true →
  counts_within cfg this → counts_within cfg (exec c this).
Proof.
  intros Hmax [Hcfg Hin]. destruct c as [key now|key now|now]; simpl.
  - unfold after. rewrite check_unfold.
    destruct (in_force now (entries this !! key)) as [e|] eqn:Hforce.
    + apply in_force_Some in Hforce as [He _].
      destruct (js_ge (Num (count e)) (maxRequests (config this))) eqn:Hge.
      * by split.
      * split; [done|]. intros k e'. simpl.
        destruct (decide (key = k)) as [->|Hne].
        -- rewrite lookup_insert_eq. intros [= <-]. simpl.
           specialize (Hin _ _ He). rewrite Hcfg in Hge.
           destruct (maxRequests cfg) as [|m]; [done|].
           apply js_ge_Num_false in Hge. rewrite js_ge_Num. lia.
        -- rewrite lookup_insert_ne by done. apply Hin.
    + split; [done|]. intros k e'. simpl.
      destruct (decide (key = k)) as [->|Hne].
      * rewrite lookup_insert_eq. intros [= <-]. simpl. split; [lia | done].
      * rewrite lookup_insert_ne by done. apply Hin.
  - unfold after. rewrite remaining_unfold. by split.
  - split; [done|]. intros k e.
    rewrite cleanup_lookup. intros Hforce.
    apply in_force_Some in Hforce as [He _]. by apply (Hin k).
Qed.

Lemma reachable_counts_within cfg this :
  js_ge (maxRequests cfg) (Num 1) = true →
  reachable cfg this → counts_within cfg this.
Proof.
  intros Hmax. induction 1 as [|c this _ IH].
  - apply counts_within_new.
  - by apply counts_within_exec.
Qed.

(** *** What [check] does *)

(** C3, as stated, fails for a quota that is [NaN]: the window of ["ip1"]
    is in force with count 1, [count < maxRequests] is false, and yet
    [check] answers [true] and counts the call. *)
Lemma nan_quota_admits :
  entries nan_quota_checked !! "ip1"
    = Some {| count := 1; resetAt := Num 60000 |}
  ∧ ¬ expired 10 {| count := 1; resetAt := Num 60000 |}
  ∧ js_lt (Num (count {| count := 1; resetAt := Num 60000 |}))
          (maxRequests (config nan_quota_checked)) = false
  ∧ result (check "ip1" 10) nan_quota_checked = true
  ∧ entries (after (check "ip1" 10) nan_quota_checked) !! "ip1"
      = Some {| count := 2; resetAt := Num 60000 |}.
Proof.
  split; [|split; [|split; [|split]]].
  - evaluate.
  - evaluate.
  - evaluate.
  - evaluate.
  - evaluate.
Qed.

(** C3, amended. [check key] at time [now]: when [key] has no window, or
    its window has passed ([now > resetAt]), a window [{count: 1, resetAt:
    now + windowMs}] replaces whatever was there and the answer is [true]
    (so the count of the former cycle is not carried over); when the window
    is in force and [count >= maxRequests], the answer is [false] and the
    limiter is unchanged; when the window is in force and [count >=
    maxRequests] does not hold, the count goes up by one, [resetAt] stays,
    and the answer is [true]. [count >= maxRequests] fails to hold exactly
    when [count < maxRequests] or [maxRequests] is [NaN]. In each case no
    other identity is touched. *)
Theorem check_spec (this : RateLimiter) (key : string) (now : Z) :
  (entries this !! key = None →
   check key now this =
     (true,
      set_entries
        (<[key := {| count := 1;
                     resetAt := js_add (Num now) (windowMs (config this)) |}]>
           (entries this)) this))
  ∧ (∀ e, entries this !! key = Some e → expired now e →
     check key now this =
       (true,
        set_entries
          (<[key := {| count := 1;
                       resetAt := js_add (Num now) (windowMs (config this)) |}]>
             (entries this)) this))
  ∧ (∀ e, entries this !! key = Some e → ¬ expired now e →
     js_ge (Num (count e)) (maxRequests (config this)) = true →
     check key now this = (false, this))
  ∧ (∀ e, entries this !! key = Some e → ¬ expired now e →
     js_ge (Num (count e)) (maxRequests (config this)) = false →
     check key now this =
       (true,
        set_entries (<[key := {| count := count e + 1;
                                 resetAt := resetAt e |}]>
                       (entries this)) this))
  ∧ (∀ c : Z,
       js_ge (Num c) (maxRequests (config this)) = false
       ↔ js_lt (Num c) (maxRequests (config this)) = true
         ∨ maxRequests (config this) = NaN).
Proof.
  split; [|split; [|split; [|split]]].
  - intros Hnone. rewrite check_unfold.
    by rewrite (proj2 (in_force_None now _) (or_introl Hnone)).
  - intros e He Hexp. rewrite check_unfold.
    rewrite (proj2 (in_force_None now (entries this !! key))); [done|].
    right. by exists e.
  - intros e He Hnow Hge. rewrite check_unfold.
    rewrite (proj2 (in_force_Some now _ e) (conj He Hnow)).
    by rewrite Hge.
  - intros e He Hnow Hlt. rewrite check_unfold.
    rewrite (proj2 (in_force_Some now _ e) (conj He Hnow)).
    by rewrite Hlt.
  - intros c. destruct (maxRequests (config this)) as [|m].
    + split; [by right | done].
    + rewrite js_ge_Num_false, js_lt_Num. split; [by left|].
      by intros [?|?].
Qed.

(** The limiter of the tests, [{windowMs: 60000, maxRequests: 3}], after
    three admitted calls of ["ip1"]: a fourth is denied, ["ip2"] is
    admitted, and ["ip1"] is admitted again with a count of 1 once its
    window has passed. *)
Lemma check_spec_witness :
  check "ip2" 40 test_exhausted =
    (true,
     set_entries
       (<["ip2" := {| count := 1;
                      resetAt := js_add (Num 40)
                                   (windowMs (config test_exhausted)) |}]>
          (entries test_exhausted)) test_exhausted)
  ∧ check "ip1" 70000 test_exhausted =
      (true,
       set_entries
         (<["ip1" := {| count := 1;
                        resetAt := js_add (Num 70000)
                                     (windowMs (config test_exhausted)) |}]>
            (entries test_exhausted)) test_exhausted)
  ∧ check "ip1" 40 test_exhausted = (false, test_exhausted)
  ∧ check "ip1" 15 (exec (Check "ip1" 10) (new test_config)) =
      (true,
       set_entries (<["ip1" := {| count := 1 + 1; resetAt := Num 60010 |}]>
                      (entries (exec (Check "ip1" 10) (new test_config))))
                   (exec (Check "ip1" 10) (new test_config)))
  ∧ check "ip1" 10 nan_quota_checked =
      (true,
       set_entries (<["ip1" := {| count := 1 + 1; resetAt := Num 60000 |}]>
                      (entries nan_quota_checked)) nan_quota_checked).
Proof.
  split; [|split; [|split; [|split]]].
  - apply (proj1 (check_spec test_exhausted "ip2" 40)). vm_compute. reflexivity.
  - apply (proj1 (proj2 (check_spec test_exhausted "ip1" 70000))
             {| count := 3; resetAt := Num 60010 |}).
    + evaluate.
    + evaluate.
  - apply (proj1 (proj2 (proj2 (check_spec test_exhausted "ip1" 40)))
             {| count := 3; resetAt := Num 60010 |}).
    + evaluate.
    + evaluate.
    + evaluate.
  - apply (proj1 (proj2 (proj2 (proj2
             (check_spec (exec (Check "ip1" 10) (new test_config)) "ip1" 15))))
             {| count := 1; resetAt := Num 60010 |}).
    + evaluate.
    + evaluate.
    + evaluate.
  - apply (proj1 (proj2 (proj2 (proj2
             (check_spec nan_quota_checked "ip1" 10))))
             {| count := 1; resetAt := Num 60000 |}).
    + evaluate.
    + evaluate.
    + evaluate.
Defined.

(** *** The bound on [count] *)

(** C6, as stated, fails for a quota below one: with [maxRequests = 0] the
    first [check] opens a window whose count is 1, and that window is in
    force. *)
Lemma zero_quota_count_exceeds :
  reachable zero_quota_config zero_quota_checked
  ∧ entries zero_quota_checked !! "ip1"
      = Some {| count := 1; resetAt := Num 60000 |}
  ∧ ¬ expired 0 {| count := 1; resetAt := Num 60000 |}
  ∧ js_gt (Num (count {| count := 1; resetAt := Num 60000 |}))
          (maxRequests zero_quota_config) = true.
Proof.
  split; [|split; [|split]].
  - apply reachable_exec, reachable_new.
  - evaluate.
  - evaluate.
  - evaluate.
Qed.

(** C6, amended. For a limiter configured with [maxRequests >= 1], in every
    reachable state the count of every window (in force or not) is at most
    [maxRequests]. *)
Theorem count_le_maxRequests (cfg : RateLimitConfig) (this : RateLimiter)
    (key : string) (e : RateLimitEntry) :
  js_ge (maxRequests cfg) (Num 1) = true →
  reachable cfg this →
  entries this !! key = Some e →
  js_ge (maxRequests cfg) (Num (count e)) = true.
Proof.
  intros Hmax Hreach He.
  destruct (reachable_counts_within cfg this Hmax Hreach) as [_ Hin].
  apply (Hin key e He).
Qed.

Lemma count_le_maxRequests_witness :
  js_ge (maxRequests test_config)
        (Num (count {| count := 3; resetAt := Num 60010 |})) = true.
Proof.
  apply (count_le_maxRequests test_config test_exhausted "ip1").
  - evaluate.
  - unfold test_exhausted. do 3 apply reachable_exec. apply reachable_new.
  - evaluate.
Defined.

(** *** What [remaining] does *)

(** C7, as stated, fails where the count is above the quota: with
    [maxRequests = 0], after one [check] the window is in force with count
    1 and [remaining] answers 0, not [maxRequests - 1]. *)
Lemma zero_quota_remaining_clamped :
  entries zero_quota_checked !! "ip1"
    = Some {| count := 1; resetAt := Num 60000 |}
  ∧ ¬ expired 0 {| count := 1; resetAt := Num 60000 |}
  ∧ result (remaining "ip1" 0) zero_quota_checked = Num 0
  ∧ result (remaining "ip1" 0) zero_quota_checked
      ≠ js_sub (maxRequests zero_quota_config)
               (Num (count {| count := 1; resetAt := Num 60000 |})).
Proof.
  split; [|split; [|split]].
  - evaluate.
  - evaluate.
  - evaluate.
  - evaluate.
Qed.

(** C7, amended. [remaining key] leaves the limiter as it was. Its answer is
    [maxRequests] when [key] has no window or its window has passed, and
    [Math.max(0, maxRequests - count)] when the window is in force, which
    is [maxRequests - count] whenever [count <= maxRequests]. For an
    identity of a new limiter it is [maxRequests]; after one [check] of an
    identity without a window in force, and while the new window is in
    force, it is [Math.max(0, maxRequests - 1)]. *)
Theorem remaining_spec (this : RateLimiter) (key : string) (now : Z) :
  after (remaining key now) this = this
  ∧ (entries this !! key = None →
     result (remaining key now) this = maxRequests (config this))
  ∧ (∀ e, entries this !! key = Some e → expired now e →
     result (remaining key now) this = maxRequests (config this))
  ∧ (∀ e, entries this !! key = Some e → ¬ expired now e →
     result (remaining key now) this
       = Math_max (Num 0) (js_sub (maxRequests (config this)) (Num (count e)))
     ∧ (js_ge (maxRequests (config this)) (Num (count e)) = true →
        result (remaining key now) this
          = js_sub (maxRequests (config this)) (Num (count e))))
  ∧ result (remaining key now) (new (config this)) = maxRequests (config this)
  ∧ (∀ before, in_force before (entries this !! key) = None →
     js_gt (Num now) (js_add (Num before) (windowMs (config this))) = false →
     result (remaining key now) (after (check key before) this)
       = Math_max (Num 0) (js_sub (maxRequests (config this)) (Num 1))).
Proof.
  unfold result, after. rewrite remaining_unfold. simpl.
  split; [done|]. split; [|split; [|split; [|split]]].
  - intros Hnone. by rewrite Hnone.
  - intros e He Hexp.
    rewrite (proj2 (in_force_None now (entries this !! key))); [done|].
    right. by exists e.
  - intros e He Hnow.
    rewrite (proj2 (in_force_Some now _ e) (conj He Hnow)).
    split; [done|]. intros Hle.
    destruct (js_ge_true _ _ Hle) as (m & c & -> & [= <-] & Hc).
    unfold Math_max, js_sub. f_equal. lia.
  - rewrite remaining_unfold. simpl. by rewrite lookup_empty.
  - intros before Hopen Hnow.
    rewrite check_unfold, Hopen, remaining_unfold. simpl.
    rewrite lookup_insert_eq. simpl. by rewrite Hnow.
Qed.

Lemma remaining_spec_witness :
  result (remaining "fresh" 5) (new test_config) = Num 3
  ∧ result (remaining "ip1" 70000) test_exhausted = Num 3
  ∧ result (remaining "ip1" 15) (exec (Check "ip1" 10) (new test_config))
      = js_sub (Num 3) (Num 1)
  ∧ result (remaining "fresh" 20) (after (check "fresh" 5) (new test_config))
      = Math_max (Num 0) (js_sub (Num 3) (Num 1)).
Proof.
  split; [|split; [|split]].
  - apply (proj1 (proj2 (remaining_spec (new test_config) "fresh" 5))).
    evaluate.
  - apply (proj1 (proj2 (proj2 (remaining_spec test_exhausted "ip1" 70000)))
             {| count := 3; resetAt := Num 60010 |}).
    + evaluate.
    + evaluate.
  - apply (proj1 (proj2 (proj2 (proj2
             (remaining_spec (exec (Check "ip1" 10) (new test_config))
                             "ip1" 15))))
             {| count := 1; resetAt := Num 60010 |}).
    + evaluate.
    + evaluate.
    + evaluate.
  - apply (proj2 (proj2 (proj2 (proj2 (proj2
             (remaining_spec (new test_config) "fresh" 20))))) 5).
    + evaluate.
    + evaluate.
Defined.

(** *** What [cleanup] does *)

(** C8. [cleanup] at time [now] deletes every window that has passed
    ([now > resetAt]), leaves every other window as it is (same count, same
    [resetAt]), adds none, and keeps the configuration. *)
Theorem cleanup_spec (this : RateLimiter) (now : Z) (key : string) :
  (∀ e, entries this !! key = Some e → expired now e →
     entries (after (cleanup now) this) !! key = None)
  ∧ (∀ e, entries this !! key = Some e → ¬ expired now e →
     entries (after (cleanup now) this) !! key = Some e)
  ∧ (entries this !! key = None →
     entries (after (cleanup now) this) !! key = None)
  ∧ config (after (cleanup now) this) = config this.
Proof.
  rewrite cleanup_lookup. split; [|split; [|split]].
  - intros e He Hexp. apply in_force_None. right. by exists e.
  - intros e He Hnow. by apply in_force_Some.
  - intros Hnone. apply in_force_None. by left.
  - done.
Qed.

Lemma cleanup_spec_witness :
  entries (after (cleanup 60015) cleanup_scene) !! "old" = None
  ∧ entries (after (cleanup 60015) cleanup_scene) !! "young"
      = Some {| count := 1; resetAt := Num 60020 |}.
Proof.
  split.
  - apply (proj1 (cleanup_spec cleanup_scene 60015 "old")
             {| count := 2; resetAt := Num 60010 |}).
    + evaluate.
    + evaluate.
  - apply (proj1 (proj2 (cleanup_spec cleanup_scene 60015 "young"))
             {| count := 1; resetAt := Num 60020 |}).
    + evaluate.
    + evaluate.
Defined.

End RateLimitFacts.

(** ** The batching data loader *)

Module LoaderFacts.
Import Loader.

Section LoaderFacts.
Context {K D : Type}.
Variable stringify : K → string.
Variable js_String : value D → string.

Local Abbreviation loader := (loader K D).
Local Abbreviation item := (item K).
Local Abbreviation load := (load (D := D) stringify).
Local Abbreviation loads := (loads (D := D) stringify).
Local Abbreviation clear := (clear (D := D) stringify).
Local Abbreviation fire := (fire stringify js_String).
Local Abbreviation run := (run stringify js_String).
Local Abbreviation reachable := (reachable stringify js_String).
Local Abbreviation settle_batch := (settle_batch js_String).
Local Abbreviation requests := (requests js_String).
Local Abbreviation resume := (resume (K := K) js_String).

Local Ltac fields :=
  cbn [cache batch scheduled promises microtasks awaiting invoked fst snd].

Local Ltac unfold_method :=
  unfold after, result, mbind, method_bind, mret, method_mret, get, put.

(** *** The methods, unfolded *)

Lemma load_unfold key (this : loader) :
  load key this =
    match cache this !! stringify key with
    | Some cached => (cached, this)
    | None =>
        (length (promises this),
         {| cache := <[stringify key := length (promises this)]> (cache this);
            batch := batch this
                       ++ [{| key := key; target := length (promises this) |}];
            scheduled := true;
            promises := promises this ++ [Pending];
            microtasks := if scheduled this then microtasks this
                          else S (microtasks this);
            awaiting := awaiting this;
            invoked := invoked this |})
    end.
Proof.
  unfold Loader.load, new_Promise, batch_push, schedule, set_cache.
  unfold_method. simpl.
  destruct (cache this !! stringify key); [done|].
  by destruct (scheduled this).
Qed.

Lemma load_cached key (this : loader) h :
  cache this !! stringify key = Some h → load key this = (h, this).
Proof. intros Hc. by rewrite load_unfold, Hc. Qed.

Lemma resume_unfold n c (this : loader) currentBatch :
  awaiting this !! n = Some currentBatch →
  after (resume n c) this =
    {| cache := cache this; batch := batch this;
       scheduled := scheduled this;
       promises := settle_batch c currentBatch (promises this);
       microtasks := microtasks this;
       awaiting := delete n (awaiting this);
       invoked := invoked this |}.
Proof. intros Hn. unfold Loader.resume. unfold_method. simpl. by rewrite Hn. Qed.

Lemma resume_idle n c (this : loader) :
  awaiting this !! n = None → after (resume n c) this = this.
Proof. intros Hn. unfold Loader.resume. unfold_method. simpl. by rewrite Hn. Qed.

(** *** Settling *)

Lemma settle_length h p (ps : list (promise D)) :
  length (settle h p ps) = length ps.
Proof.
  unfold settle. destruct (ps !! h) as [[]|]; [|done..].
  apply length_insert.
Qed.

Lemma settle_lookup_ne h h' p (ps : list (promise D)) :
  h ≠ h' → settle h p ps !! h' = ps !! h'.
Proof.
  intros Hne. unfold settle. destruct (ps !! h) as [[]|]; [|done..].
  by apply list_lookup_insert_ne.
Qed.

Lemma settle_pending h p (ps : list (promise D)) :
  ps !! h = Some Pending → settle h p ps !! h = Some p.
Proof.
  intros Hp. unfold settle. rewrite Hp.
  apply list_lookup_insert_eq. by apply lookup_lt_Some in Hp.
Qed.

(** A settled promise keeps its state whatever is settled afterwards. *)
Lemma settle_settled h h' p q (ps : list (promise D)) :
  ps !! h' = Some q → settled q = true → settle h p ps !! h' = Some q.
Proof.
  intros Hq Hs. destruct (decide (h = h')) as [Heq|Hne].
  - subst h'. unfold settle. rewrite Hq. by destruct q.
  - by rewrite settle_lookup_ne.
Qed.

Lemma settle_list_cons h p l (ps : list (promise D)) :
  settle_list ((h, p) :: l) ps = settle_list l (settle h p ps).
Proof. done. Qed.

Lemma settle_list_length l (ps : list (promise D)) :
  length (settle_list l ps) = length ps.
Proof.
  revert ps. induction l as [|[h p] l IH]; intros ps; [done|].
  rewrite settle_list_cons, IH. apply settle_length.
Qed.

Lemma settle_list_lookup_notin l (ps : list (promise D)) h :
  h ∉ l.*1 → settle_list l ps !! h = ps !! h.
Proof.
  revert ps. induction l as [|[h0 p0] l IH]; intros ps Hnotin; [done|].
  rewrite fmap_cons in Hnotin. simpl in Hnotin.
  apply not_elem_of_cons in Hnotin as [Hne Hnotin].
  rewrite settle_list_cons, IH by done.
  by apply settle_lookup_ne.
Qed.

Lemma settle_list_settled l (ps : list (promise D)) h q :
  ps !! h = Some q → settled q = true → settle_list l ps !! h = Some q.
Proof.
  revert ps. induction l as [|[h0 p0] l IH]; intros ps Hq Hs; [done|].
  rewrite settle_list_cons. apply IH; [|done]. by apply settle_settled.
Qed.

(** Distinct pending promises each take the state asked for them. *)
Lemma settle_list_lookup_in l (ps : list (promise D)) h p :
  NoDup l.*1 →
  (∀ h', h' ∈ l.*1 → ps !! h' = Some Pending) →
  (h, p) ∈ l →
  settle_list l ps !! h = Some p.
Proof.
  revert ps. induction l as [|[h0 p0] l IH]; intros ps Hnd Hpend Hin.
  { by apply elem_of_nil in Hin. }
  rewrite fmap_cons in Hnd, Hpend. simpl in Hnd, Hpend.
  apply NoDup_cons in Hnd as [Hh0 Hnd].
  rewrite settle_list_cons.
  apply elem_of_cons in Hin as [Heq|Hin].
  - injection Heq as -> ->.
    rewrite settle_list_lookup_notin by done.
    apply settle_pending, Hpend. by left.
  - apply IH; [done| |done].
    intros h' Hh'. rewrite settle_lookup_ne.
    + apply Hpend. by right.
    + intros ->. done.
Qed.

(** A promise of the store that is asked to settle is settled afterwards. *)
Lemma settle_list_settles l (ps : list (promise D)) h :
  h ∈ l.*1 → h < length ps →
  (∀ hp, hp ∈ l → settled hp.2 = true) →
  ∃ q, settle_list l ps !! h = Some q ∧ settled q = true.
Proof.
  revert ps. induction l as [|[h0 p0] l IH]; intros ps Hin Hlt Hall.
  { by apply elem_of_nil in Hin. }
  rewrite fmap_cons in Hin. simpl in Hin. rewrite settle_list_cons.
  destruct (decide (h = h0)) as [->|Hne].
  - destruct (ps !! h0) as [q|] eqn:Hq.
    + destruct (settled q) eqn:Hs.
      * exists q. split; [|done].
        apply settle_list_settled; [|done]. by apply settle_settled.
      * destruct q; try done. exists p0. split.
        -- apply settle_list_settled; [by apply settle_pending|].
           apply (Hall (h0, p0)). by left.
        -- apply (Hall (h0, p0)). by left.
    + apply lookup_ge_None in Hq. lia.
  - apply elem_of_cons in Hin as [?|Hin]; [done|].
    apply IH; [done| |].
    + by rewrite settle_length.
    + intros hp Hhp. apply Hall. by right.
Qed.

(** *** The two loops of the dispatch callback *)

Lemma foldl_agree {A B} (f g : B → A → B) (l : list A) (b : B) :
  (∀ b a, a ∈ l → f b a = g b a) → foldl f b l = foldl g b l.
Proof.
  revert b. induction l as [|a l IH]; intros b Hfg; [done|].
  simpl. rewrite Hfg by by left. apply IH.
  intros b' a' Ha'. apply Hfg. by right.
Qed.

Lemma settle_results_requests results (currentBatch : list item) ps :
  settle_results results currentBatch ps
    = settle_list (requests (Returned results) currentBatch) ps.
Proof.
  unfold settle_results, settle_list, Loader.requests.
  induction currentBatch as [|it currentBatch IH] using rev_ind; [done|].
  rewrite length_app, seq_app, foldl_app, imap_app, foldl_app.
  cbn [length seq foldl imap Nat.add fst snd].
  rewrite Nat.add_0_r, list_lookup_middle by done.
  rewrite (foldl_agree _
    (λ ps i,
       match currentBatch !! i with
       | Some it =>
           if instanceof_Error (default Undefined (results !! i))
           then reject it (default Undefined (results !! i)) ps
           else resolve it (default Undefined (results !! i)) ps
       | None => ps
       end)).
  - rewrite IH. unfold slot_outcome, reject, resolve.
    by destruct
         (instanceof_Error (default Undefined (results !! length currentBatch))).
  - intros b i Hi. apply elem_of_seq in Hi.
    by rewrite lookup_app_l by lia.
Qed.

Lemma reject_all_requests error (currentBatch : list item) ps :
  reject_all js_String error currentBatch ps
    = settle_list (requests (Threw error) currentBatch) ps.
Proof.
  unfold reject_all, settle_list. simpl.
  revert ps. induction currentBatch as [|it currentBatch IH]; intros ps; [done|].
  simpl. apply IH.
Qed.

Lemma settle_batch_requests c (currentBatch : list item) ps :
  settle_batch c currentBatch ps = settle_list (requests c currentBatch) ps.
Proof.
  destruct c; [apply settle_results_requests | apply reject_all_requests].
Qed.

Lemma requests_targets c (currentBatch : list item) :
  (requests c currentBatch).*1 = target <$> currentBatch.
Proof.
  destruct c as [results|error]; simpl.
  - rewrite fmap_imap. unfold compose. simpl.
    induction currentBatch as [|it l IH] using rev_ind; [done|].
    rewrite imap_app, fmap_app, IH. done.
  - rewrite <- list_fmap_compose. done.
Qed.

Lemma requests_settled c (currentBatch : list item) hp :
  hp ∈ requests c currentBatch → settled hp.2 = true.
Proof.
  destruct c as [results|error]; simpl.
  - intros Hin. apply elem_of_lookup_imap in Hin as (i & it & -> & _).
    simpl. unfold slot_outcome.
    by destruct (instanceof_Error (default Undefined (results !! i))).
  - intros Hin. apply list_elem_of_fmap in Hin as (it & -> & _). done.
Qed.

(** *** The invariant *)

Lemma held_pending_lt (this : loader) h :
  wf this → h ∈ held this → h < length (promises this).
Proof.
  intros Hwf Hh. apply (wf_held_pending _ Hwf) in Hh.
  by apply lookup_lt_Some in Hh.
Qed.

Lemma held_resume n (this : loader) currentBatch :
  awaiting this !! n = Some currentBatch →
  held this ≡ₚ (target <$> currentBatch)
                 ++ (target <$> (batch this ++ concat (delete n (awaiting this)))).
Proof.
  intros Hn. unfold held.
  rewrite <- (take_drop_middle _ _ _ Hn) at 1.
  rewrite delete_take_drop, !concat_app, concat_cons, !fmap_app.
  rewrite (Permutation_app_swap_app (target <$> concat (take n (awaiting this)))).
  by rewrite (Permutation_app_swap_app (target <$> batch this)).
Qed.

Lemma wf_create : wf (createDataLoader : loader).
Proof.
  split; simpl.
  - constructor.
  - intros h Hh. by apply elem_of_nil in Hh.
  - intros ck h. by rewrite lookup_empty.
  - done.
Qed.

Lemma wf_load key (this : loader) : wf this → wf (after (load key) this).
Proof.
  intros Hwf. unfold after. rewrite load_unfold.
  destruct (cache this !! stringify key) as [h|] eqn:Hc; [done|]. simpl.
  assert (held {| cache := <[stringify key := length (promises this)]> (cache this);
                  batch := batch this
                    ++ [{| key := key; target := length (promises this) |}];
                  scheduled := true;
                  promises := promises this ++ [Pending];
                  microtasks := if scheduled this then microtasks this
                                else S (microtasks this);
                  awaiting := awaiting this;
                  invoked := invoked this |}
          ≡ₚ length (promises this) :: held this) as Hheld.
  { unfold held. simpl. rewrite !fmap_app. simpl.
    rewrite <- app_assoc. simpl. by rewrite <- Permutation_middle. }
  split; simpl.
  - rewrite Hheld. apply NoDup_cons. split; [|apply Hwf].
    intros Hin. apply held_pending_lt in Hin; [lia | done].
  - intros h. rewrite Hheld. intros Hin.
    apply elem_of_cons in Hin as [->|Hin].
    + by rewrite lookup_app_r, Nat.sub_diag.
    + rewrite lookup_app_l by by apply held_pending_lt.
      by apply Hwf.
  - intros ck h. rewrite length_app. simpl.
    destruct (decide (stringify key = ck)) as [<-|Hne].
    + rewrite lookup_insert_eq. intros [= <-]. lia.
    + rewrite lookup_insert_ne by done. intros Hck.
      apply (wf_cache_bound _ Hwf) in Hck. lia.
  - rewrite (wf_microtasks _ Hwf). by destruct (scheduled this).
Qed.

Lemma wf_set_cache (this : loader) c :
  wf this → (∀ ck h, c !! ck = Some h → cache this !! ck = Some h) →
  wf (after (set_cache c) this).
Proof.
  intros Hwf Hsub. split; simpl; try apply Hwf.
  intros ck h Hck. apply (wf_cache_bound _ Hwf ck). by apply Hsub.
Qed.

Lemma wf_dispatch (this : loader) : wf this → wf (after dispatch this).
Proof.
  intros Hwf.
  assert (held (after dispatch this) ≡ₚ held this) as Hheld.
  { unfold held. simpl. rewrite concat_app. simpl.
    rewrite app_nil_r. apply fmap_Permutation, Permutation_app_comm. }
  split.
  - rewrite Hheld. apply Hwf.
  - intros h. rewrite Hheld. apply Hwf.
  - apply Hwf.
  - simpl. rewrite (wf_microtasks _ Hwf). by destruct (scheduled this).
Qed.

Lemma wf_resume n c (this : loader) : wf this → wf (after (resume n c) this).
Proof.
  intros Hwf. destruct (awaiting this !! n) as [currentBatch|] eqn:Hn.
  2: { by rewrite resume_idle. }
  rewrite (resume_unfold _ _ _ _ Hn).
  pose proof (wf_held_NoDup _ Hwf) as Hnd.
  rewrite (held_resume _ _ _ Hn) in Hnd.
  apply NoDup_app in Hnd as (Hnd1 & Hdisj & Hnd2).
  split; simpl.
  - done.
  - intros h Hh. rewrite settle_batch_requests.
    rewrite settle_list_lookup_notin.
    + apply Hwf. rewrite (held_resume _ _ _ Hn).
      apply elem_of_app. by right.
    + rewrite requests_targets. intros Hin. by apply (Hdisj h).
  - intros ck h Hck. rewrite settle_batch_requests, settle_list_length.
    by apply (wf_cache_bound _ Hwf ck).
  - apply Hwf.
Qed.

Lemma wf_fire e (this : loader) : wf this → wf (fire e this).
Proof.
  intros Hwf. destruct e as [key|key| | |n c]; simpl.
  - by apply wf_load.
  - apply (wf_set_cache this (delete (stringify key) (cache this)) Hwf).
    intros ck h Hck. apply lookup_delete_Some in Hck. tauto.
  - apply (wf_set_cache this ∅ Hwf). intros ck h. by rewrite lookup_empty.
  - by apply wf_dispatch.
  - by apply wf_resume.
Qed.

Lemma wf_run es (this : loader) : wf this → wf (run es this).
Proof.
  revert this. induction es as [|e es IH]; intros this Hwf; [done|].
  simpl. by apply IH, wf_fire.
Qed.

Lemma reachable_wf (this : loader) : reachable this → wf this.
Proof.
  induction 1 as [|e this _ IH _]; [apply wf_create | by apply wf_fire].
Qed.

Lemma reachable_run es (this : loader) :
  reachable this → runnable stringify js_String es this →
  reachable (run es this).
Proof.
  revert this. induction es as [|e es IH]; intros this Hr Hes; [done|].
  destruct Hes as [He Hes]. simpl. apply IH; [|done].
  by apply reachable_fire.
Qed.

(** The promises of a suspended callback are distinct and pending. *)
Lemma awaiting_targets n (this : loader) currentBatch :
  wf this → awaiting this !! n = Some currentBatch →
  NoDup (target <$> currentBatch)
  ∧ ∀ h, h ∈ target <$> currentBatch → promises this !! h = Some Pending.
Proof.
  intros Hwf Hn. pose proof (wf_held_NoDup _ Hwf) as Hnd.
  rewrite (held_resume _ _ _ Hn) in Hnd.
  apply NoDup_app in Hnd as (Hnd & _ & _). split; [done|].
  intros h Hh. apply Hwf. rewrite (held_resume _ _ _ Hn).
  apply elem_of_app. by left.
Qed.

(** What a resumed callback does to the promises of its batch and to the
    others. *)
Lemma resume_observe_in n c (this : loader) currentBatch h p :
  wf this → awaiting this !! n = Some currentBatch →
  (h, p) ∈ requests c currentBatch →
  observe (after (resume n c) this) h = Some p.
Proof.
  intros Hwf Hn Hin. rewrite (resume_unfold _ _ _ _ Hn).
  unfold observe. simpl. rewrite settle_batch_requests.
  destruct (awaiting_targets _ _ _ Hwf Hn) as [Hnd Hpend].
  apply settle_list_lookup_in; [| |done]; by rewrite requests_targets.
Qed.

Lemma resume_observe_notin n c (this : loader) currentBatch h :
  awaiting this !! n = Some currentBatch →
  h ∉ target <$> currentBatch →
  observe (after (resume n c) this) h = observe this h.
Proof.
  intros Hn Hnotin. rewrite (resume_unfold _ _ _ _ Hn).
  unfold observe. simpl. rewrite settle_batch_requests.
  apply settle_list_lookup_notin. by rewrite requests_targets.
Qed.

Lemma resume_observe_settled n c (this : loader) h q :
  observe this h = Some q → settled q = true →
  observe (after (resume n c) this) h = Some q.
Proof.
  intros Hq Hs. destruct (awaiting this !! n) as [currentBatch|] eqn:Hn.
  - rewrite (resume_unfold _ _ _ _ Hn). unfold observe. simpl.
    rewrite settle_batch_requests. by apply settle_list_settled.
  - by rewrite resume_idle.
Qed.

(** *** Settled cache entries stay *)

Lemma fire_keeps_settled_entry e (this : loader) ck h q :
  invalidates e = false →
  cache this !! ck = Some h → observe this h = Some q → settled q = true →
  cache (fire e this) !! ck = Some h ∧ observe (fire e this) h = Some q.
Proof.
  intros He Hc Hq Hs. destruct e as [key|key| | |n c]; try done; simpl.
  - unfold after. rewrite load_unfold.
    destruct (cache this !! stringify key) as [h'|] eqn:Hkey; [done|].
    unfold observe. simpl. split.
    + rewrite lookup_insert_ne; [done|]. intros Heq. congruence.
    + rewrite lookup_app_l; [done|]. by apply lookup_lt_Some in Hq.
  - split; [|by apply resume_observe_settled].
    destruct (awaiting this !! n) as [currentBatch|] eqn:Hn.
    + by rewrite (resume_unfold _ _ _ _ Hn).
    + by rewrite resume_idle.
Qed.

(** C2. Let the cache hold handle [h] for the normalized form of [key], and
    let [h] be settled, with a failure or with a value. Then whatever
    happens next other than [clear] and [clearAll] (loads of any keys,
    dispatches, completions of batch calls), the cache still holds [h] for
    that key, [h] still shows the same outcome, and [load key] returns [h]
    and leaves the loader exactly as it was: nothing is queued, nothing is
    scheduled and the batch function is not called. *)
Theorem settled_entry_is_returned_again (this : loader) (key : K) (h : handle)
    (q : promise D) (es : list event) :
  cache this !! stringify key = Some h →
  observe this h = Some q →
  settled q = true →
  Forall (λ e, invalidates e = false) es →
  cache (run es this) !! stringify key = Some h
  ∧ observe (run es this) h = Some q
  ∧ load key (run es this) = (h, run es this).
Proof.
  intros Hc Hq Hs Hes.
  assert (cache (run es this) !! stringify key = Some h
          ∧ observe (run es this) h = Some q) as [Hc' Hq'].
  { revert this Hc Hq. induction Hes as [|e es He _ IH]; intros this Hc Hq.
    - done.
    - simpl.
      destruct (fire_keeps_settled_entry e this _ h q He Hc Hq Hs) as [Hc1 Hq1].
      by apply IH. }
  split; [done|]. split; [done|]. by apply load_cached.
Qed.

(** *** Completion of a batch call *)

(** C4. Let a dispatch be suspended with [currentBatch] and let its call of
    the batch function return [results], of the length of [currentBatch].
    Then for every position [i] the promise of item [i] shows
    [Rejected result] when slot [i] is an instance of [Error] and
    [Fulfilled result] otherwise, [null] included; the promises of the
    items are pairwise distinct, so a failure in slot [i] fails the handle
    of item [i] only; and every promise outside the batch is as before. *)
Theorem results_settle_by_position (this : loader) (n : nat)
    (currentBatch : list item) (results : list (value D)) :
  reachable this →
  awaiting this !! n = Some currentBatch →
  length results = length currentBatch →
  (∀ i it,
     currentBatch !! i = Some it →
     ∃ result,
       results !! i = Some result
       ∧ observe (after (resume n (Returned results)) this) (target it)
           = Some (if instanceof_Error result then Rejected result
                   else Fulfilled result))
  ∧ (∀ i it,
       currentBatch !! i = Some it → results !! i = Some Null →
       observe (after (resume n (Returned results)) this) (target it)
         = Some (Fulfilled Null))
  ∧ (∀ i j it it',
       currentBatch !! i = Some it → currentBatch !! j = Some it' →
       i ≠ j → target it ≠ target it')
  ∧ (∀ h, h ∉ target <$> currentBatch →
       observe (after (resume n (Returned results)) this) h = observe this h).
Proof.
  intros Hreach Hn Hlen. apply reachable_wf in Hreach as Hwf.
  assert (∀ i it result,
     currentBatch !! i = Some it → results !! i = Some result →
     observe (after (resume n (Returned results)) this) (target it)
       = Some (slot_outcome result)) as Hpos.
  { intros i it result Hi Hr.
    apply (resume_observe_in _ _ _ currentBatch); [done..|].
    simpl. apply elem_of_lookup_imap. exists i, it.
    by rewrite Hr. }
  split; [|split; [|split]].
  - intros i it Hi.
    destruct (results !! i) as [result|] eqn:Hr.
    + exists result. split; [done|]. by apply (Hpos i).
    + apply lookup_ge_None in Hr. apply lookup_lt_Some in Hi. lia.
  - intros i it Hi Hr. apply (Hpos i it Null Hi Hr).
  - intros i j it it' Hi Hj Hne Heq.
    destruct (awaiting_targets _ _ _ Hwf Hn) as [Hnd _].
    apply Hne. apply (NoDup_lookup _ i j (target it) Hnd).
    + by rewrite list_lookup_fmap, Hi.
    + by rewrite list_lookup_fmap, Hj, Heq.
  - intros h Hh. by apply (resume_observe_notin _ _ _ currentBatch).
Qed.

(** C5, amended. Let a dispatch be suspended with [currentBatch] and let its
    call of the batch function throw, or reject with, [error]. Then the
    promise of every item of [currentBatch] shows [Rejected] with one and
    the same reason: [error] itself when [error] is an instance of [Error],
    and otherwise a new [Error] whose message is [String(error)]; every
    promise outside the batch is as before. *)
Theorem batch_failure_rejects_all (this : loader) (n : nat)
    (currentBatch : list item) (error : value D) :
  reachable this →
  awaiting this !! n = Some currentBatch →
  (∀ it, it ∈ currentBatch →
     observe (after (resume n (Threw error)) this) (target it)
       = Some (Rejected (as_Error js_String error)))
  ∧ (instanceof_Error error = true → as_Error js_String error = error)
  ∧ (instanceof_Error error = false →
     as_Error js_String error = Error (js_String error))
  ∧ (∀ h, h ∉ target <$> currentBatch →
       observe (after (resume n (Threw error)) this) h = observe this h).
Proof.
  intros Hreach Hn. apply reachable_wf in Hreach as Hwf.
  split; [|split; [|split]].
  - intros it Hit.
    apply (resume_observe_in _ _ _ currentBatch); [done..|].
    simpl. apply list_elem_of_fmap. by exists it.
  - unfold as_Error. by intros ->.
  - unfold as_Error. by intros ->.
  - intros h Hh. by apply (resume_observe_notin _ _ _ currentBatch).
Qed.

(** *** Invalidation *)

Lemma dispatched_promises c (this : loader) :
  promises (dispatched js_String c this)
    = settle_batch c (batch this) (promises this).
Proof.
  unfold dispatched.
  rewrite (resume_unfold _ _ _ (batch this)); [done|].
  simpl. by rewrite lookup_app_r, Nat.sub_diag.
Qed.

(** Every request of the queue is settled once the dispatch is through. *)
Lemma dispatched_settles c (this : loader) h :
  h ∈ target <$> batch this → h < length (promises this) →
  ∃ q, observe (dispatched js_String c this) h = Some q ∧ settled q = true.
Proof.
  intros Hin Hlt. unfold observe.
  rewrite dispatched_promises, settle_batch_requests.
  apply settle_list_settles.
  - by rewrite requests_targets.
  - done.
  - apply requests_settled.
Qed.

Lemma fire_promises_length e (this : loader) :
  length (promises this) ≤ length (promises (fire e this)).
Proof.
  destruct e as [key|key| | |n c]; simpl; try done.
  - unfold after. rewrite load_unfold.
    destruct (cache this !! stringify key); fields; [done|].
    rewrite length_app. lia.
  - destruct (awaiting this !! n) as [currentBatch|] eqn:Hn.
    + rewrite (resume_unfold _ _ _ _ Hn). fields.
      by rewrite settle_batch_requests, settle_list_length.
    + by rewrite resume_idle.
Qed.

Lemma run_promises_length es (this : loader) :
  length (promises this) ≤ length (promises (run es this)).
Proof.
  revert this. induction es as [|e es IH]; intros this; [done|].
  simpl. etrans; [apply (fire_promises_length e)|apply IH].
Qed.

Lemma fire_leaves_uncached k e (this : loader) :
  cache this !! stringify k = None → leaves stringify k e →
  cache (fire e this) !! stringify k = None.
Proof.
  intros Hc He. destruct e as [key|key| | |n c]; simpl in *.
  - unfold after. rewrite load_unfold.
    destruct (cache this !! stringify key); fields; [done|].
    by rewrite lookup_insert_ne.
  - apply lookup_delete_None. by right.
  - apply lookup_empty.
  - done.
  - destruct (awaiting this !! n) as [currentBatch|] eqn:Hn.
    + by rewrite (resume_unfold _ _ _ _ Hn).
    + by rewrite resume_idle.
Qed.

Lemma cleared_uncached key es (this : loader) :
  Forall (leaves stringify key) es →
  cache (cleared stringify js_String key es this) !! stringify key = None.
Proof.
  intros Hes. unfold cleared.
  assert (cache (after (clear key) this) !! stringify key = None) as Hc
    by apply lookup_delete_eq.
  revert Hc. generalize (after (clear key) this).
  induction Hes as [|e es He _ IH]; intros s Hc; [done|].
  simpl. by apply IH, fire_leaves_uncached.
Qed.

(** C9. Take any reachable loader, whatever its cache holds for [key], call
    [clear key], and let anything happen next except a [load] of a key of
    the same normalized form. Then [load key] makes a new promise: its
    handle names no promise made before, so it is none of the handles
    cached now or before the [clear]; the promise is pending, a request for
    [key] is queued with it, and it is cached. A dispatch is then due, and
    it calls the batch function once more, with a key list that ends with
    [key]. *)
Theorem load_after_clear (this : loader) (key : K) (es : list event) :
  reachable this →
  Forall (leaves stringify key) es →
  result (load key) (cleared stringify js_String key es this)
    = length (promises (cleared stringify js_String key es this))
  ∧ observe (cleared stringify js_String key es this)
            (length (promises (cleared stringify js_String key es this)))
      = None
  ∧ (∀ ck h0,
       cache this !! ck = Some h0
       ∨ cache (cleared stringify js_String key es this) !! ck = Some h0 →
       h0 ≠ length (promises (cleared stringify js_String key es this)))
  ∧ observe (after (load key) (cleared stringify js_String key es this))
            (length (promises (cleared stringify js_String key es this)))
      = Some Pending
  ∧ batch (after (load key) (cleared stringify js_String key es this))
      = batch (cleared stringify js_String key es this)
          ++ [{| key := key;
                 target :=
                   length (promises (cleared stringify js_String key es this)) |}]
  ∧ cache (after (load key) (cleared stringify js_String key es this))
      !! stringify key
      = Some (length (promises (cleared stringify js_String key es this)))
  ∧ enabled Dispatch (after (load key) (cleared stringify js_String key es this))
  ∧ result dispatch (after (load key) (cleared stringify js_String key es this))
      = (Loader.key <$> batch (cleared stringify js_String key es this))
          ++ [key]
  ∧ invoked (after dispatch
               (after (load key) (cleared stringify js_String key es this)))
      = invoked (cleared stringify js_String key es this)
          ++ [(Loader.key <$> batch (cleared stringify js_String key es this))
                ++ [key]].
Proof.
  intros Hreach Hes. apply reachable_wf in Hreach as Hwf.
  pose proof (cleared_uncached key es this Hes) as Hnone.
  assert (wf (cleared stringify js_String key es this)) as Hwf'.
  { unfold cleared. apply wf_run. by apply (wf_fire (Clear key)). }
  assert (length (promises this)
          ≤ length (promises (cleared stringify js_String key es this)))
    as Hlen.
  { unfold cleared. etrans; [|apply run_promises_length]. done. }
  pose proof (load_unfold key (cleared stringify js_String key es this))
    as Hload.
  rewrite Hnone in Hload.
  set (s' := cleared stringify js_String key es this) in *.
  unfold result, after. rewrite Hload. fields.
  repeat split.
  - unfold observe. by apply lookup_ge_None.
  - intros ck h0 [Hck|Hck].
    + apply (wf_cache_bound _ Hwf) in Hck. lia.
    + apply (wf_cache_bound _ Hwf') in Hck. lia.
  - unfold observe. fields. by rewrite lookup_app_r, Nat.sub_diag.
  - apply lookup_insert_eq.
  - simpl. rewrite (wf_microtasks _ Hwf'). by destruct (scheduled s').
  - simpl. by rewrite fmap_app.
  - simpl. by rewrite fmap_app.
Qed.

(** C10. [clear key] and [clearAll] change the cache only, and only by
    removing entries ([clear] removes the entry of [key], [clearAll] all of
    them): the queue, the scheduling flag, the queued microtask, the
    suspended dispatches and the promises are as before. Hence the
    dispatch calls the batch function with the keys that were queued, every
    completion of a batch call settles the promises as it would have
    without the invalidation, and every queued request is settled once the
    dispatch is through. *)
Theorem invalidation_keeps_queue (this : loader) (e : event) :
  invalidates e = true →
  (batch (fire e this) = batch this
   ∧ scheduled (fire e this) = scheduled this
   ∧ microtasks (fire e this) = microtasks this
   ∧ awaiting (fire e this) = awaiting this
   ∧ promises (fire e this) = promises this
   ∧ invoked (fire e this) = invoked this)
  ∧ (∀ ck h, cache (fire e this) !! ck = Some h → cache this !! ck = Some h)
  ∧ (∀ key, e = Clear key →
       cache (fire e this) = delete (stringify key) (cache this))
  ∧ (e = ClearAll → cache (fire e this) = ∅)
  ∧ result dispatch (fire e this) = key <$> batch this
  ∧ (∀ c, promises (dispatched js_String c (fire e this))
            = promises (dispatched js_String c this))
  ∧ (∀ n c, promises (after (resume n c) (fire e this))
              = promises (after (resume n c) this))
  ∧ (reachable this → ∀ c it, it ∈ batch this →
       ∃ q, observe (dispatched js_String c (fire e this)) (target it) = Some q
            ∧ settled q = true).
Proof.
  intros He.
  assert (batch (fire e this) = batch this
          ∧ awaiting (fire e this) = awaiting this
          ∧ promises (fire e this) = promises this) as (Hb & Ha & Hp).
  { by destruct e. }
  split; [by destruct e|]. split; [|split; [|split; [|split; [|split; [|split]]]]].
  - destruct e as [key|key| | |n c]; [done| | |done|done].
    + intros ck h Hck. simpl in Hck.
      apply lookup_delete_Some in Hck. tauto.
    + intros ck h Hck. simpl in Hck. by rewrite lookup_empty in Hck.
  - by intros key ->.
  - by intros ->.
  - unfold result. simpl. by rewrite Hb.
  - intros c. by rewrite !dispatched_promises, Hb, Hp.
  - intros n c. destruct (awaiting this !! n) as [currentBatch|] eqn:Hn.
    + rewrite (resume_unfold _ _ _ currentBatch) by by rewrite Ha.
      rewrite (resume_unfold _ _ _ currentBatch) by done.
      simpl. by rewrite Hp.
    + rewrite !resume_idle; [done..|]. by rewrite Ha.
  - intros Hreach c it Hit. apply reachable_wf in Hreach as Hwf.
    apply dispatched_settles.
    + rewrite Hb. apply list_elem_of_fmap. by exists it.
    + rewrite Hp. apply (held_pending_lt _ _ Hwf).
      unfold held. rewrite fmap_app. apply elem_of_app. left.
      apply list_elem_of_fmap. by exists it.
Qed.

(** *** Loads of one key before a dispatch *)

Local Abbreviation alike := (alike stringify).
Local Abbreviation before_dispatch := (before_dispatch stringify).
Local Abbreviation returned := (returned (D := D) stringify).
Local Abbreviation handed := (handed stringify js_String).

Lemma loads_cons key rest (this : loader) :
  result (loads (key :: rest)) this
    = result (load key) this :: result (loads rest) (after (load key) this)
  ∧ after (loads (key :: rest)) this
    = after (loads rest) (after (load key) this).
Proof.
  unfold result, after. simpl. unfold mbind, method_bind, mret, method_mret.
  destruct (load key this) as [h s1]. simpl.
  by destruct (Loader.loads stringify rest s1).
Qed.

Lemma alike_snoc k keys key :
  alike k (keys ++ [key])
    = alike k keys ++ (if decide (stringify key = stringify k) then [key] else []).
Proof.
  unfold Loader.alike. by rewrite filter_app.
Qed.

(** One [load] while the cache holds [h] for the form of [k]. *)
Lemma load_step_cached k h key (this : loader) :
  cache this !! stringify k = Some h →
  cache (after (load key) this) !! stringify k = Some h
  ∧ (stringify key = stringify k → result (load key) this = h)
  ∧ alike k (Loader.key <$> batch (after (load key) this))
      = alike k (Loader.key <$> batch this)
  ∧ length (promises this) ≤ length (promises (after (load key) this))
  ∧ awaiting (after (load key) this) = awaiting this
  ∧ (∀ it, it ∈ batch this → it ∈ batch (after (load key) this)).
Proof.
  intros Hc. unfold result, after. rewrite load_unfold.
  destruct (cache this !! stringify key) as [h'|] eqn:Hkey; fields.
  - repeat split; try done. intros Heq. congruence.
  - assert (stringify key ≠ stringify k) as Hne by congruence.
    repeat split.
    + by rewrite lookup_insert_ne.
    + done.
    + rewrite fmap_app. simpl (_ <$> [_]). rewrite alike_snoc.
      destruct (decide (stringify key = stringify k)); [done|].
      by rewrite app_nil_r.
    + rewrite length_app. lia.
    + intros it Hit. apply elem_of_app. by left.
Qed.

(** One [load] of a key of another form while the cache holds nothing for
    the form of [k]. *)
Lemma load_step_other k key (this : loader) :
  cache this !! stringify k = None →
  stringify key ≠ stringify k →
  cache (after (load key) this) !! stringify k = None
  ∧ alike k (Loader.key <$> batch (after (load key) this))
      = alike k (Loader.key <$> batch this)
  ∧ awaiting (after (load key) this) = awaiting this.
Proof.
  intros Hc Hne. unfold after. rewrite load_unfold.
  destruct (cache this !! stringify key) as [h'|] eqn:Hkey; fields.
  - done.
  - repeat split.
    + by rewrite lookup_insert_ne.
    + rewrite fmap_app. simpl (_ <$> [_]). rewrite alike_snoc.
      destruct (decide (stringify key = stringify k)); [done|].
      by rewrite app_nil_r.
Qed.

(** The first [load] of a key of the form of [k]. *)
Lemma load_step_first k key (this : loader) :
  cache this !! stringify k = None →
  stringify key = stringify k →
  result (load key) this = length (promises this)
  ∧ cache (after (load key) this) !! stringify k = Some (length (promises this))
  ∧ alike k (Loader.key <$> batch (after (load key) this))
      = alike k (Loader.key <$> batch this) ++ [key]
  ∧ {| key := key; target := length (promises this) |}
      ∈ batch (after (load key) this)
  ∧ length (promises this) < length (promises (after (load key) this))
  ∧ awaiting (after (load key) this) = awaiting this.
Proof.
  intros Hc Heq. unfold result, after. rewrite load_unfold, Heq, Hc. fields.
  repeat split.
  - apply lookup_insert_eq.
  - rewrite fmap_app. simpl (_ <$> [_]). rewrite alike_snoc.
    by destruct (decide (stringify key = stringify k)).
  - apply elem_of_app. right. by left.
  - rewrite length_app. simpl. lia.
Qed.

(** The completion of an earlier batch call touches neither the cache nor
    the queue. *)
Lemma resume_keeps_queue n c (this : loader) :
  cache (after (resume n c) this) = cache this
  ∧ batch (after (resume n c) this) = batch this
  ∧ length (promises (after (resume n c) this)) = length (promises this).
Proof.
  destruct (awaiting this !! n) as [currentBatch|] eqn:Hn.
  - rewrite (resume_unfold _ _ _ _ Hn). fields.
    by rewrite settle_batch_requests, settle_list_length.
  - by rewrite resume_idle.
Qed.

(** One event before the dispatch while the cache holds [h] for the form
    of [k]. *)
Lemma fire_step_cached k h e (this : loader) :
  cache this !! stringify k = Some h →
  before_dispatch k e →
  cache (fire e this) !! stringify k = Some h
  ∧ (∀ k', e = Load k' → stringify k' = stringify k →
       returned e this = Some h)
  ∧ alike k (key <$> batch (fire e this)) = alike k (key <$> batch this)
  ∧ length (promises this) ≤ length (promises (fire e this))
  ∧ (∀ it, it ∈ batch this → it ∈ batch (fire e this)).
Proof.
  intros Hc He. destruct e as [key'|key'| | |n c]; simpl in He; try done.
  - destruct (load_step_cached k h key' this Hc)
      as (Hc1 & Hres & Hal & Hlen & _ & Hmono).
    simpl. repeat split; try done.
    intros k' [= ->] Hk'. by rewrite Hres.
  - simpl. unfold after, Loader.clear, set_cache. unfold_method. fields.
    repeat split; try done. by rewrite lookup_delete_ne.
  - destruct (resume_keeps_queue n c this) as (Hcache & Hbatch & Hlen).
    simpl. rewrite Hcache, Hbatch, Hlen. repeat split; done.
Qed.

(** One event before the dispatch, other than a [load] of a key of the form
    of [k], while the cache holds nothing for that form. *)
Lemma fire_step_other k e (this : loader) :
  cache this !! stringify k = None →
  before_dispatch k e →
  leaves stringify k e →
  cache (fire e this) !! stringify k = None
  ∧ alike k (key <$> batch (fire e this)) = alike k (key <$> batch this).
Proof.
  intros Hc He Hl. split; [by apply fire_leaves_uncached|].
  destruct e as [key'|key'| | |n c]; simpl in He, Hl; try done.
  - by destruct (load_step_other k key' this Hc Hl) as (_ & Hal & _).
  - destruct (resume_keeps_queue n c this) as (_ & Hbatch & _).
    simpl. by rewrite Hbatch.
Qed.

Lemma run_follow k h es (this : loader) :
  cache this !! stringify k = Some h →
  Forall (before_dispatch k) es →
  (∀ i k', es !! i = Some (Load k') → stringify k' = stringify k →
     handed es this !! i = Some (Some h))
  ∧ alike k (key <$> batch (run es this)) = alike k (key <$> batch this)
  ∧ length (promises this) ≤ length (promises (run es this))
  ∧ (∀ it, it ∈ batch this → it ∈ batch (run es this)).
Proof.
  intros Hc Hes. revert this Hc.
  induction Hes as [|e es He _ IH]; intros this Hc.
  { repeat split; done. }
  destruct (fire_step_cached k h e this Hc He)
    as (Hc1 & Hres & Hal & Hlen & Hmono).
  destruct (IH _ Hc1) as (IHres & IHal & IHlen & IHmono).
  repeat split.
  - intros [|i] k' Hi Hk'; simpl in *.
    + injection Hi as ->. f_equal. by apply (Hres k').
    + by apply (IHres i k').
  - simpl. by rewrite IHal.
  - simpl. lia.
  - intros it Hit. by apply IHmono, Hmono.
Qed.

Lemma run_first k es (this : loader) :
  cache this !! stringify k = None →
  Forall (before_dispatch k) es →
  (∃ k', Load k' ∈ es ∧ stringify k' = stringify k) →
  ∃ h k0,
    (∀ i k', es !! i = Some (Load k') → stringify k' = stringify k →
       handed es this !! i = Some (Some h))
    ∧ Load k0 ∈ es ∧ stringify k0 = stringify k
    ∧ alike k (key <$> batch (run es this))
        = alike k (key <$> batch this) ++ [k0]
    ∧ {| key := k0; target := h |} ∈ batch (run es this)
    ∧ h < length (promises (run es this)).
Proof.
  intros Hc Hes. revert this Hc.
  induction Hes as [|e es He Hes IH]; intros this Hc Hex.
  { destruct Hex as (k' & Hk' & _). by apply elem_of_nil in Hk'. }
  assert (leaves stringify k e
          ∨ ∃ key', e = Load key' ∧ stringify key' = stringify k)
    as [Hl|(key' & -> & Hl)].
  { destruct e as [key'|key'| | |n c]; simpl; try by left.
    destruct (decide (stringify key' = stringify k)); [right|by left].
    by exists key'. }
  - destruct (fire_step_other k e this Hc He Hl) as (Hc1 & Hal1).
    destruct (IH (fire e this))
      as (h & k0 & IHres & IHin & IHk0 & IHal & IHit & IHlt).
    + done.
    + destruct Hex as (k' & Hk' & Hform).
      apply elem_of_cons in Hk' as [<-|Hk']; [done|]. by exists k'.
    + exists h, k0. repeat split; try done.
      * intros [|i] k' Hi Hk'; simpl in *.
        -- injection Hi as ->. done.
        -- by apply (IHres i k').
      * by right.
      * simpl. by rewrite IHal, Hal1.
  - destruct (load_step_first k key' this Hc Hl)
      as (Hres & Hc1 & Hal1 & Hin1 & Hlt1 & _).
    destruct (run_follow k _ es _ Hc1 Hes) as (Fres & Fal & Flen & Fmono).
    exists (length (promises this)), key'. repeat split.
    + intros [|i] k' Hi Hk'; simpl in *.
      * by rewrite Hres.
      * by apply (Fres i k').
    + by left.
    + done.
    + simpl. by rewrite Fal, Hal1.
    + by apply Fmono.
    + simpl. lia.
Qed.

(** C1, amended. Let any events happen one after the other, a [load] of
    [k] among them, none of them a dispatch, a [clearAll], or a [clear] of
    a key of the normalized form of [k]: loads of any keys, [clear] of keys
    of other forms, and completions of batch calls made earlier. Then every
    [load] of [k], and of any key of the same normalized form, returns one
    and the same handle [h], so that all the callers observe one outcome,
    that of [h]. If moreover neither a cache entry nor a queued request
    exists for the normalized form of [k] when the events begin, the
    dispatch that follows calls the batch function with exactly one key
    [k0] of that form, which is [k] itself unless another key of the same
    form was loaded, [h] is the promise of its request, and [h] is settled
    once that call has completed, whatever it completes with. *)
Theorem loads_share_one_request (this : loader) (es : list event) (k : K) :
  Forall (before_dispatch k) es →
  Load k ∈ es →
  ∃ h,
    (∀ i k', es !! i = Some (Load k') → stringify k' = stringify k →
       handed es this !! i = Some (Some h))
    ∧ (cache this !! stringify k = None →
       alike k (key <$> batch this) = [] →
       ∃ k0,
         (Load k0 ∈ es ∧ stringify k0 = stringify k
          ∧ ((∀ k', Load k' ∈ es → stringify k' = stringify k → k' = k)
             → k0 = k))
         ∧ alike k (result dispatch (run es this)) = [k0]
         ∧ {| key := k0; target := h |} ∈ batch (run es this)
         ∧ (∀ c, ∃ q,
              observe (dispatched js_String c (run es this)) h = Some q
              ∧ settled q = true)).
Proof.
  intros Hes Hk. destruct (cache this !! stringify k) as [h|] eqn:Hc.
  - exists h. split; [|done].
    by destruct (run_follow k h es this Hc Hes) as (Hres & _).
  - destruct (run_first k es this Hc Hes)
      as (h & k0 & Hres & Hin & Hk0 & Hal' & Hit & Hlt).
    { by exists k. }
    exists h. split; [done|]. intros _ Hal. exists k0. repeat split; try done.
    + intros Hinj. by apply Hinj.
    + unfold result. simpl. by rewrite Hal', Hal.
    + intros c. apply dispatched_settles; [|done].
      apply list_elem_of_fmap. by exists {| key := k0; target := h |}.
Qed.

End LoaderFacts.

(** *** The properties on the loader over numeric keys *)

Local Ltac evaluate := vm_compute; first [reflexivity | discriminate].
Local Ltac can_run := vm_compute; repeat split; first [discriminate | lia].

Lemma demo_run_reachable es :
  runnable number_key demo_String es createDataLoader →
  reachable number_key demo_String (demo_run es).
Proof. intros Hes. apply reachable_run; [apply reachable_create | done]. Qed.

(** C1, as stated, fails when [clear] comes between two loads of a key:
    [load(1); clear(1); load(1)] hands out two different handles, and the
    dispatch calls the batch function with the key twice. *)
Lemma clear_between_loads_splits :
  result (load number_key 1) (demo_run []) = 0
  ∧ result (load number_key 1) (demo_run [Load 1; Clear 1]) = 1
  ∧ result dispatch reloaded_in_tick = [1; 1].
Proof. split; [|split]; evaluate. Qed.

(** A tick in which the batch call for [7] is still under way: [load(1)],
    [clear(7)], the completion of that call, [load(2)], [load(1)]. The two
    loads of [1] return one handle, and the dispatch asks for [1] once. *)
Lemma loads_share_one_request_witness :
  handed number_key demo_String busy_tick seven_under_way !! 0
    = handed number_key demo_String busy_tick seven_under_way !! 4
  ∧ length (alike number_key 1
              (result dispatch
                 (run number_key demo_String busy_tick seven_under_way))) = 1.
Proof.
  destruct (loads_share_one_request number_key demo_String
              seven_under_way busy_tick 1) as (h & Hres & Hone).
  - unfold busy_tick.
    repeat (apply Forall_cons; split;
            [vm_compute; first [exact I | discriminate]|]).
    constructor.
  - apply elem_of_cons. by left.
  - split.
    + rewrite (Hres 0 1), (Hres 4 1); reflexivity.
    + destruct Hone as (k0 & _ & Hal & _); [evaluate..|].
      rewrite Hal. reflexivity.
Defined.

Lemma settled_entry_is_returned_again_witness :
  cache (run number_key demo_String [Load 2; Dispatch] failed_one)
    !! number_key 1 = Some 0
  ∧ observe (run number_key demo_String [Load 2; Dispatch] failed_one) 0
      = Some (Rejected (Error "down"))
  ∧ load number_key 1 (run number_key demo_String [Load 2; Dispatch] failed_one)
      = (0, run number_key demo_String [Load 2; Dispatch] failed_one).
Proof.
  apply (settled_entry_is_returned_again number_key demo_String failed_one 1 0
           (Rejected (Error "down")) [Load 2; Dispatch]).
  - evaluate.
  - evaluate.
  - reflexivity.
  - repeat constructor.
Defined.

Lemma results_settle_by_position_witness :
  observe (after (resume demo_String 0
                    (Returned [Data "valueA"; Error "x"; Null]))
                 three_dispatched) 1
    = Some (Rejected (Error "x"))
  ∧ observe (after (resume demo_String 0
                      (Returned [Data "valueA"; Error "x"; Null]))
                   three_dispatched) 2
      = Some (Fulfilled Null).
Proof.
  destruct (results_settle_by_position number_key demo_String
              three_dispatched 0 three_items
              [Data "valueA"; Error "x"; Null]) as (Hpos & Hnull & _).
  - apply demo_run_reachable. can_run.
  - evaluate.
  - reflexivity.
  - split.
    + destruct (Hpos 1 {| key := 2; target := 1 |}) as (result & Hr & Hobs);
        [reflexivity|].
      injection Hr as <-. exact Hobs.
    + apply (Hnull 2 {| key := 3; target := 2 |}); reflexivity.
Defined.

(** C5, as stated, fails when what the batch function throws is not an
    instance of [Error]: thrown the string ["boom"], the requests are
    failed with a new [Error] made from it, not with the string. *)
Lemma thrown_string_is_wrapped :
  observe (after (resume demo_String 0 (Threw (Str "boom"))) three_dispatched) 0
    = Some (Rejected (Error "boom"))
  ∧ observe (after (resume demo_String 0 (Threw (Str "boom"))) three_dispatched) 0
      ≠ Some (Rejected (Str "boom")).
Proof. split; evaluate. Qed.

Lemma batch_failure_rejects_all_witness :
  observe (after (resume demo_String 0 (Threw (Error "down"))) three_dispatched) 2
    = Some (Rejected (Error "down")).
Proof.
  destruct (batch_failure_rejects_all number_key demo_String
              three_dispatched 0 three_items (Error "down")) as (Hall & _).
  - apply demo_run_reachable. can_run.
  - evaluate.
  - apply (Hall {| key := 3; target := 2 |}).
    apply elem_of_cons. right. apply elem_of_cons. right.
    apply elem_of_cons. by left.
Defined.

Lemma load_after_clear_witness :
  result (load number_key 1)
         (cleared number_key demo_String 1 [Load 2; Dispatch] failed_one) = 2
  ∧ result dispatch
      (after (load number_key 1)
             (cleared number_key demo_String 1 [Load 2; Dispatch] failed_one))
      = [1].
Proof.
  destruct (load_after_clear number_key demo_String failed_one 1
              [Load 2; Dispatch])
    as (Hh & _ & _ & _ & _ & _ & _ & Hkeys & _).
  - apply demo_run_reachable. can_run.
  - repeat constructor. evaluate.
  - split; [exact Hh | exact Hkeys].
Defined.

Lemma invalidation_keeps_queue_witness :
  batch (fire number_key demo_String ClearAll three_loaded) = batch three_loaded
  ∧ result dispatch (fire number_key demo_String ClearAll three_loaded)
      = key <$> batch three_loaded.
Proof.
  destruct (invalidation_keeps_queue number_key demo_String three_loaded
              ClearAll) as ((Hb & _) & _ & _ & _ & Hkeys & _).
  - reflexivity.
  - split; [exact Hb | exact Hkeys].
Defined.

End LoaderFacts.

(** ** More on the rate limiter *)

Module RateLimitMore.
Import RateLimit RateLimitUse RateLimitFacts.
Open Scope Z_scope.

Local Ltac evaluate := vm_compute; first [reflexivity | discriminate].

Lemma checks_cons key now rest this :
  result (checks key (now :: rest)) this
    = result (check key now) this
        :: result (checks key rest) (after (check key now) this).
Proof.
  unfold result, after. simpl. unfold mbind, method_bind, mret, method_mret.
  destruct (check key now this) as [ok s1]. simpl.
  by destruct (checks key rest s1).
Qed.

(** A burst inside a window that is in force, under a numeric quota. *)
Lemma checks_in_window key times this e m :
  maxRequests (config this) = Num m →
  entries this !! key = Some e →
  Forall (λ t, ¬ expired t e) times →
  result (checks key times) this
    = replicate (length times `min` Z.to_nat (m - count e)) true
      ++ replicate (length times - Z.to_nat (m - count e)) false.
Proof.
  intros Hm He Htimes. revert this e Hm He Htimes.
  induction times as [|t rest IH]; intros this e Hm He Htimes; [done|].
  apply Forall_cons in Htimes as [Ht Hrest].
  rewrite checks_cons. unfold result at 1, after. rewrite check_unfold.
  rewrite (proj2 (in_force_Some t _ e) (conj He Ht)), Hm.
  destruct (js_ge (Num (count e)) (Num m)) eqn:Hge.
  - apply js_ge_Num in Hge. simpl. rewrite (IH this e Hm He Hrest).
    replace (Z.to_nat (m - count e)) with 0%nat by lia.
    by rewrite !Nat.min_0_r, !Nat.sub_0_r.
  - apply js_ge_Num_false in Hge. simpl.
    rewrite (IH _ {| count := count e + 1; resetAt := resetAt e |});
      [|done|by simpl; rewrite lookup_insert_eq|done].
    simpl.
    replace (Z.to_nat (m - count e))
      with (S (Z.to_nat (m - (count e + 1)))) by lia.
    done.
Qed.

(** A burst inside a window that is in force, under a quota that is [NaN]. *)
Lemma checks_in_window_NaN key times this e :
  maxRequests (config this) = NaN →
  entries this !! key = Some e →
  Forall (λ t, ¬ expired t e) times →
  result (checks key times) this = replicate (length times) true.
Proof.
  intros Hm He Htimes. revert this e Hm He Htimes.
  induction times as [|t rest IH]; intros this e Hm He Htimes; [done|].
  apply Forall_cons in Htimes as [Ht Hrest].
  rewrite checks_cons. unfold result at 1, after. rewrite check_unfold.
  rewrite (proj2 (in_force_Some t _ e) (conj He Ht)), Hm. simpl.
  f_equal.
  by rewrite (IH _ {| count := count e + 1; resetAt := resetAt e |});
    [|done|by simpl; rewrite lookup_insert_eq|done].
Qed.

(** X1. A burst of requests of one identity that opens a window (the
    identity has no window in force at the first request) and stays inside
    it (at none of the later requests has the new window passed, which is
    so at any time when [windowMs] is [NaN]): the first request is
    admitted; under a numeric quota the next [maxRequests - 1] are admitted
    and every one after that is denied (with a quota below one the first
    request is still admitted); under a quota that is [NaN] every request
    is admitted. *)
Theorem burst_admits_quota (this : RateLimiter) (key : string) (t0 : Z)
    (times : list Z) :
  in_force t0 (entries this !! key) = None →
  Forall (λ t, js_gt (Num t) (js_add (Num t0) (windowMs (config this)))
               = false) times →
  result (checks key (t0 :: times)) this
    = true
      :: match maxRequests (config this) with
         | Num m =>
             replicate (length times `min` Z.to_nat (m - 1)) true
             ++ replicate (length times - Z.to_nat (m - 1)) false
         | NaN => replicate (length times) true
         end.
Proof.
  intros Hopen Htimes. rewrite checks_cons.
  unfold result at 1, after. rewrite check_unfold, Hopen. simpl.
  f_equal.
  set (e := {| count := 1;
               resetAt := js_add (Num t0) (windowMs (config this)) |}).
  assert (Forall (λ t, ¬ expired t e) times) as Hlive.
  { apply (Forall_impl _ _ _ Htimes). intros t Ht. by apply not_expired. }
  destruct (maxRequests (config this)) as [|m] eqn:Hm.
  - by rewrite (checks_in_window_NaN key times _ e);
      [|done|by simpl; rewrite lookup_insert_eq|].
  - by rewrite (checks_in_window key times _ e m);
      [|done|by simpl; rewrite lookup_insert_eq|].
Qed.

Lemma burst_admits_quota_witness :
  result (checks "ip1" [10; 20; 30; 40; 50]) (new test_config)
    = [true; true; true; false; false]
  ∧ result (checks "ip1" [10; 20; 30; 40; 50]) (new nan_quota_config)
    = [true; true; true; true; true]
  ∧ result (checks "ip1" [10; 20; 30; 40; 70000]) (new nan_window_config)
    = [true; true; true; false; false].
Proof.
  split; [|split].
  - apply (burst_admits_quota (new test_config) "ip1" 10 [20; 30; 40; 50]).
    + evaluate.
    + repeat constructor; evaluate.
  - apply (burst_admits_quota (new nan_quota_config) "ip1" 10 [20; 30; 40; 50]).
    + evaluate.
    + repeat constructor; evaluate.
  - apply (burst_admits_quota (new nan_window_config) "ip1" 10
             [20; 30; 40; 70000]).
    + evaluate.
    + repeat constructor; evaluate.
Defined.

(** X2. With a quota of at least one, [check] admits a request exactly when
    [remaining], asked at the same time just before, is positive. *)
Theorem check_iff_remaining_positive (this : RateLimiter) (key : string)
    (now : Z) :
  js_ge (maxRequests (config this)) (Num 1) = true →
  result (check key now) this = true
  ↔ js_gt (result (remaining key now) this) (Num 0) = true.
Proof.
  intros Hmax. unfold result. rewrite check_unfold, remaining_unfold.
  destruct (js_ge_true _ _ Hmax) as (m & ? & Hm & [= <-] & Hle).
  rewrite Hm.
  destruct (in_force now (entries this !! key)) as [e|]; simpl.
  - unfold Math_max, js_sub. rewrite js_gt_Num.
    destruct (js_ge (Num (count e)) (Num m)) eqn:Hge; simpl.
    + apply js_ge_Num in Hge. split; intros; [done | lia].
    + apply js_ge_Num_false in Hge. split; intros; [lia | done].
  - rewrite js_gt_Num. split; intros; [lia | done].
Qed.

Lemma check_iff_remaining_positive_witness :
  result (check "ip1" 40 ) test_exhausted = true
  ↔ js_gt (result (remaining "ip1" 40) test_exhausted) (Num 0) = true.
Proof.
  apply (check_iff_remaining_positive test_exhausted "ip1" 40). evaluate.
Defined.

(** X3. With a quota of at least one and a window length that is not
    negative, an admitted [check] lowers [remaining] by exactly one and a
    denied [check] leaves it as it is. *)
Theorem check_consumes_one (this : RateLimiter) (key : string) (now : Z) :
  js_ge (maxRequests (config this)) (Num 1) = true →
  js_ge (windowMs (config this)) (Num 0) = true →
  result (remaining key now) (after (check key now) this)
    = js_sub (result (remaining key now) this)
             (Num (if result (check key now) this then 1 else 0)).
Proof.
  intros Hmax Hwin. unfold result, after.
  destruct (js_ge_true _ _ Hmax) as (m & ? & Hm & [= <-] & Hle).
  destruct (js_ge_true _ _ Hwin) as (w & ? & Hw & [= <-] & Hle').
  rewrite check_unfold, (remaining_unfold key now this), Hm, Hw.
  destruct (in_force now (entries this !! key)) as [e|] eqn:Hforce; simpl.
  - destruct (js_ge (Num (count e)) (Num m)) eqn:Hge; simpl.
    + apply js_ge_Num in Hge.
      rewrite remaining_unfold, Hforce, Hm. simpl.
      unfold Math_max, js_sub. f_equal. lia.
    + apply js_ge_Num_false in Hge.
      apply in_force_Some in Hforce as [He Hnow].
      apply not_expired in Hnow.
      rewrite remaining_unfold. simpl. rewrite lookup_insert_eq. simpl.
      rewrite Hnow, Hm. unfold Math_max, js_sub. simpl. f_equal. lia.
  - rewrite remaining_unfold. simpl. rewrite lookup_insert_eq. simpl.
    unfold js_add.
    rewrite (proj2 (js_gt_Num_false now (now + w))) by lia.
    rewrite Hm. unfold Math_max, js_sub. simpl. f_equal. lia.
Qed.

Lemma check_consumes_one_witness :
  result (remaining "ip1" 15) (after (check "ip1" 15)
                                 (exec (Check "ip1" 10) (new test_config)))
    = js_sub
        (result (remaining "ip1" 15) (exec (Check "ip1" 10) (new test_config)))
        (Num (if result (check "ip1" 15)
                     (exec (Check "ip1" 10) (new test_config))
              then 1 else 0)).
Proof.
  apply (check_consumes_one (exec (Check "ip1" 10) (new test_config)) "ip1" 15);
    evaluate.
Defined.

(** X4. Identities are independent: a [check] of one identity changes
    neither the window of another identity nor what [check] and
    [remaining] answer for it, at any time. *)
Theorem check_leaves_others (this : RateLimiter) (key other : string)
    (now t : Z) :
  key ≠ other →
  entries (after (check key now) this) !! other = entries this !! other
  ∧ result (check other t) (after (check key now) this)
      = result (check other t) this
  ∧ result (remaining other t) (after (check key now) this)
      = result (remaining other t) this.
Proof.
  intros Hne.
  assert (entries (after (check key now) this) !! other = entries this !! other
          ∧ config (after (check key now) this) = config this) as [Hentry Hcfg].
  { unfold after. rewrite check_unfold.
    destruct (in_force now (entries this !! key)) as [e|]; simpl.
    - destruct (js_ge (Num (count e)) (maxRequests (config this))); simpl;
        [done|].
      by rewrite lookup_insert_ne.
    - by rewrite lookup_insert_ne. }
  split; [done|]. unfold result.
  rewrite !check_unfold, !remaining_unfold, Hentry, Hcfg.
  destruct (in_force t (entries this !! other)) as [e|]; simpl; [|done].
  by destruct (js_ge (Num (count e)) (maxRequests (config this))).
Qed.

Lemma check_leaves_others_witness :
  entries (after (check "ip2" 35) test_exhausted) !! "ip1"
    = entries test_exhausted !! "ip1"
  ∧ result (check "ip1" 40) (after (check "ip2" 35) test_exhausted)
      = result (check "ip1" 40) test_exhausted
  ∧ result (remaining "ip1" 40) (after (check "ip2" 35) test_exhausted)
      = result (remaining "ip1" 40) test_exhausted.
Proof. apply (check_leaves_others test_exhausted "ip2" "ip1" 35 40). evaluate. Defined.

(** *** [cleanup] cannot be observed *)

Lemma in_force_later now t (o : option RateLimitEntry) :
  now ≤ t → in_force t (in_force now o) = in_force t o.
Proof.
  intros Hle. unfold in_force. destruct o as [e|]; [|done].
  destruct (js_gt (Num now) (resetAt e)) eqn:Hnow; [|done].
  destruct (resetAt e) as [|r]; [done|].
  apply js_gt_Num in Hnow.
  by rewrite (proj2 (js_gt_Num t r)) by lia.
Qed.

Lemma alike_from_later t0 t1 a b :
  t0 ≤ t1 → alike_from t0 a b → alike_from t1 a b.
Proof.
  intros Hle [Hcfg Hin]. split; [done|].
  intros key t Ht. apply Hin. lia.
Qed.

Lemma alike_from_cleanup t0 now a b :
  t0 ≤ now → alike_from t0 a b → alike_from now (exec (Cleanup now) a) b.
Proof.
  intros Hle [Hcfg Hin]. split; [done|].
  intros key t Ht. unfold exec. rewrite cleanup_lookup.
  rewrite in_force_later by done. apply Hin. lia.
Qed.

Lemma alike_from_check t0 key now a b :
  t0 ≤ now → alike_from t0 a b →
  result (check key now) a = result (check key now) b
  ∧ alike_from t0 (exec (Check key now) a) (exec (Check key now) b).
Proof.
  intros Hle [Hcfg Hin]. simpl. unfold result, after.
  rewrite !check_unfold, (Hin key now Hle), Hcfg.
  destruct (in_force now (entries b !! key)) as [e|].
  - destruct (js_ge (Num (count e)) (maxRequests (config b))); simpl;
      [by split|].
    split; [done|]. split; [done|]. intros k t Ht. simpl.
    destruct (decide (key = k)) as [->|Hne].
    + by rewrite !lookup_insert_eq.
    + rewrite !lookup_insert_ne by done. by apply Hin.
  - simpl. split; [done|]. split; [done|]. intros k t Ht. simpl.
    destruct (decide (key = k)) as [->|Hne].
    + by rewrite !lookup_insert_eq.
    + rewrite !lookup_insert_ne by done. by apply Hin.
Qed.

Lemma alike_from_remaining t0 key now a b :
  t0 ≤ now → alike_from t0 a b →
  result (remaining key now) a = result (remaining key now) b
  ∧ alike_from t0 (exec (Remaining key now) a) (exec (Remaining key now) b).
Proof.
  intros Hle [Hcfg Hin]. simpl. unfold result, after.
  rewrite !remaining_unfold, (Hin key now Hle), Hcfg. by split.
Qed.

Lemma answers_alike cs : ∀ t0 a b,
  alike_from t0 a b →
  Forall (λ c, t0 ≤ time_of c) cs →
  StronglySorted Z.le (time_of <$> cs) →
  answers cs a = answers (filter (λ c, is_cleanup c = false) cs) b.
Proof.
  induction cs as [|c cs IH]; intros t0 a b Hab Hfrom Hsorted; [done|].
  apply Forall_cons in Hfrom as [Hc Hfrom].
  rewrite fmap_cons in Hsorted.
  apply StronglySorted_inv in Hsorted as [Hsorted Hhead].
  destruct c as [key now|key now|now]; simpl in Hc.
  - rewrite filter_cons_True by done. simpl.
    destruct (alike_from_check t0 key now a b Hc Hab) as [-> Hab'].
    f_equal. by apply (IH t0).
  - rewrite filter_cons_True by done. simpl.
    destruct (alike_from_remaining t0 key now a b Hc Hab) as [-> Hab'].
    f_equal. by apply (IH t0).
  - rewrite filter_cons_False by done. simpl.
    apply (IH now).
    + by apply (alike_from_cleanup t0).
    + apply (Forall_impl _ _ _ (proj1 (Forall_fmap time_of _ cs) Hhead)).
      intros c Hle. exact Hle.
    + done.
Qed.

(** X5. As long as the clock does not go backwards, [cleanup] cannot be
    observed: along any sequence of calls made at times that do not
    decrease, the answers of [check] and [remaining] are the answers they
    give when the [cleanup] calls are left out. So the timer started by
    [createRateLimiter] changes no decision. *)
Theorem cleanup_is_unobservable (this : RateLimiter) (cs : list call) :
  StronglySorted Z.le (time_of <$> cs) →
  answers cs this = answers (filter (λ c, is_cleanup c = false) cs) this.
Proof.
  intros Hsorted. destruct cs as [|c cs]; [done|].
  apply (answers_alike _ (time_of c)); [done| |done].
  rewrite fmap_cons in Hsorted.
  apply StronglySorted_inv in Hsorted as [_ Hhead].
  apply Forall_cons. split; [lia|].
  apply (Forall_impl _ _ _ (proj1 (Forall_fmap time_of _ cs) Hhead)).
  intros c' Hle. exact Hle.
Qed.

Lemma cleanup_is_unobservable_witness :
  answers traffic (createRateLimiter test_config)
    = answers (filter (λ c, is_cleanup c = false) traffic)
              (createRateLimiter test_config).
Proof.
  apply (cleanup_is_unobservable (createRateLimiter test_config) traffic).
  unfold traffic. simpl.
  repeat (apply SSorted_cons; [|repeat constructor; evaluate]).
  constructor.
Defined.



(** X7. In every reachable state of a limiter with a quota of at least one,
    [remaining] is between 0 and [maxRequests], and below [maxRequests]
    while the identity has a window in force. *)
Theorem remaining_bounds (cfg : RateLimitConfig) (this : RateLimiter)
    (key : string) (now : Z) :
  js_ge (maxRequests cfg) (Num 1) = true →
  reachable cfg this →
  (js_ge (result (remaining key now) this) (Num 0) = true
   ∧ js_ge (maxRequests cfg) (result (remaining key now) this) = true)
  ∧ (∀ e, in_force now (entries this !! key) = Some e →
       js_lt (result (remaining key now) this) (maxRequests cfg) = true).
Proof.
  intros Hmax Hreach.
  destruct (reachable_counts_within cfg this Hmax Hreach) as [Hcfg Hin].
  destruct (js_ge_true _ _ Hmax) as (m & ? & Hm & [= <-] & Hle).
  unfold result. rewrite remaining_unfold, Hcfg, Hm in *. simpl.
  destruct (in_force now (entries this !! key)) as [e|] eqn:Hforce.
  - apply in_force_Some in Hforce as [He _].
    destruct (Hin key e He) as [Hone Hcount]. apply js_ge_Num in Hcount.
    unfold Math_max, js_sub. rewrite !js_ge_Num.
    split; [lia|]. intros e' [= <-]. rewrite js_lt_Num. lia.
  - rewrite !js_ge_Num. split; [lia|]. by intros e'.
Qed.

Lemma remaining_bounds_witness :
  js_ge (result (remaining "ip1" 40) test_exhausted) (Num 0) = true
  ∧ js_ge (maxRequests test_config)
          (result (remaining "ip1" 40) test_exhausted) = true.
Proof.
  apply (remaining_bounds test_config test_exhausted "ip1" 40).
  - evaluate.
  - unfold test_exhausted. do 3 apply reachable_exec. apply reachable_new.
Defined.

End RateLimitMore.

(** ** More on the data loader *)

Module LoaderMore.
Import Loader LoaderUse LoaderFacts.

Section LoaderMore.
Context {K D : Type}.
Variable stringify : K → string.
Variable js_String : value D → string.

Local Abbreviation loader := (loader K D).
Local Abbreviation item := (item K).
Local Abbreviation load := (load (D := D) stringify).
Local Abbreviation loads := (loads (D := D) stringify).
Local Abbreviation fire := (fire stringify js_String).
Local Abbreviation run := (run stringify js_String).
Local Abbreviation reachable := (reachable stringify js_String).
Local Abbreviation resume := (resume (K := K) js_String).
Local Abbreviation taken_up := (taken_up (D := D) stringify).

Local Ltac fields :=
  cbn [cache batch scheduled promises microtasks awaiting invoked fst snd].

(** *** What a loader accounts for *)

Lemma requested_fire e (this : loader) :
  requested (fire e this) = requested this ++ taken_up e this.
Proof.
  unfold requested. destruct e as [k|k| | |n c]; simpl.
  - unfold after. rewrite load_unfold.
    destruct (cache this !! stringify k); fields.
    + by rewrite app_nil_r.
    + by rewrite fmap_app, app_assoc.
  - by rewrite app_nil_r.
  - by rewrite app_nil_r.
  - rewrite concat_app. simpl. by rewrite !app_nil_r.
  - rewrite app_nil_r.
    destruct (awaiting this !! n) as [currentBatch|] eqn:Hn.
    + by rewrite (resume_unfold _ _ _ _ _ Hn).
    + by rewrite resume_idle.
Qed.

Lemma fire_promises e (this : loader) :
  length (promises (fire e this))
    = length (promises this) + length (taken_up e this).
Proof.
  destruct e as [k|k| | |n c]; simpl; try lia.
  - unfold after. rewrite load_unfold.
    destruct (cache this !! stringify k); fields; simpl; [lia|].
    by rewrite length_app.
  - destruct (awaiting this !! n) as [currentBatch|] eqn:Hn.
    + rewrite (resume_unfold _ _ _ _ _ Hn). fields.
      rewrite settle_batch_requests, settle_list_length. lia.
    + rewrite resume_idle by done. lia.
Qed.

Lemma elem_of_concat_delete {A} n (ls : list (list A)) x :
  x ∈ concat (delete n ls) → x ∈ concat ls.
Proof.
  rewrite !list_elem_of_In, !in_concat.
  intros (l & Hl & Hx). exists l. split; [|done].
  apply list_elem_of_In. apply list_elem_of_In in Hl.
  by apply list_elem_of_delete_inv in Hl.
Qed.

Lemma accounted_create : accounted (createDataLoader : loader).
Proof.
  split; simpl.
  - split; [done|]. intros Hne. by destruct Hne.
  - constructor.
  - intros h Hh. by rewrite lookup_nil in Hh.
  - done.
  - intros it Hit. by apply elem_of_nil in Hit.
Qed.

Lemma accounted_load k (this : loader) :
  accounted this → accounted (after (load k) this).
Proof.
  intros Hacc. pose proof (requested_fire (Load k) this) as Hreq.
  simpl in Hreq. unfold after in *. rewrite load_unfold in *.
  destruct (cache this !! stringify k) as [h|] eqn:Hc; [done|].
  fields. cbn [cache batch promises awaiting invoked fst snd] in Hreq.
  pose proof (acc_length _ Hacc) as Hlen.
  split; fields.
  - split; [|done]. intros _ Hnil. by apply app_nil in Hnil as [_ ?].
  - apply Hacc.
  - intros h Hh. unfold held. fields.
    rewrite <- app_assoc, fmap_app, fmap_app. simpl.
    destruct (decide (h = length (promises this))) as [->|Hne].
    + apply elem_of_app. right. by left.
    + assert (h < length (promises this)) as Hlt.
      { apply lookup_lt_Some in Hh. rewrite length_app in Hh. simpl in Hh. lia. }
      rewrite lookup_app_l in Hh by done.
      apply (acc_pending _ Hacc) in Hh. unfold held in Hh.
      rewrite fmap_app in Hh. apply elem_of_app in Hh as [Hh|Hh].
      * apply elem_of_app. by left.
      * apply elem_of_app. right. by right.
  - rewrite Hreq, !length_app. simpl. lia.
  - intros it Hit. rewrite Hreq.
    rewrite <- app_assoc in Hit. apply elem_of_app in Hit as [Hit|Hit].
    + rewrite lookup_app_l.
      * apply Hacc. apply elem_of_app. by left.
      * apply (lookup_lt_Some _ _ (key it)), Hacc. apply elem_of_app. by left.
    + apply elem_of_cons in Hit as [->|Hit].
      * simpl. by rewrite lookup_app_r, Hlen, Nat.sub_diag by lia.
      * rewrite lookup_app_l.
        -- apply Hacc. apply elem_of_app. by right.
        -- apply (lookup_lt_Some _ _ (key it)), Hacc. apply elem_of_app. by right.
Qed.

Lemma accounted_dispatch (this : loader) :
  wf this → enabled Dispatch this →
  accounted this → accounted (after dispatch this).
Proof.
  intros Hwf Hen Hacc. pose proof (requested_fire Dispatch this) as Hreq.
  simpl in Hreq, Hen. rewrite app_nil_r in Hreq.
  assert (batch this ≠ []) as Hbatch.
  { apply Hacc. rewrite (wf_microtasks _ Hwf) in Hen.
    by destruct (scheduled this). }
  split.
  - simpl. split; [done|]. intros Hne. by destruct Hne.
  - simpl. apply Forall_app. split; [apply Hacc|].
    apply Forall_singleton. intros Hnil. apply fmap_nil_inv in Hnil. done.
  - intros h Hh. apply (acc_pending _ Hacc) in Hh.
    unfold held in *. simpl. rewrite concat_app. simpl. rewrite app_nil_r.
    rewrite fmap_app in *. apply elem_of_app. apply elem_of_app in Hh. tauto.
  - rewrite Hreq. apply Hacc.
  - intros it Hit. rewrite Hreq. apply Hacc.
    simpl in Hit. rewrite concat_app in Hit. simpl in Hit.
    rewrite app_nil_r in Hit.
    apply elem_of_app. apply elem_of_app in Hit. tauto.
Qed.

Lemma accounted_resume n c (this : loader) :
  wf this → accounted this → accounted (after (resume n c) this).
Proof.
  intros Hwf Hacc. pose proof (requested_fire (Resume n c) this) as Hreq.
  simpl in Hreq. rewrite app_nil_r in Hreq.
  destruct (awaiting this !! n) as [currentBatch|] eqn:Hn.
  2: { by rewrite resume_idle. }
  split.
  - rewrite (resume_unfold _ _ _ _ _ Hn). fields. apply Hacc.
  - rewrite (resume_unfold _ _ _ _ _ Hn). fields. apply Hacc.
  - rewrite (resume_unfold _ _ _ _ _ Hn). fields. intros h Hh.
    rewrite settle_batch_requests in Hh.
    destruct (decide (h ∈ target <$> currentBatch)) as [Hin|Hnotin].
    + destruct (settle_list_settles (requests js_String c currentBatch)
                  (promises this) h) as (q & Hq & Hs).
      * by rewrite requests_targets.
      * apply (held_pending_lt _ _ Hwf). rewrite (held_resume _ _ _ Hn).
        apply elem_of_app. by left.
      * apply requests_settled.
      * rewrite Hq in Hh. by injection Hh as ->.
    + rewrite settle_list_lookup_notin in Hh by by rewrite requests_targets.
      apply (acc_pending _ Hacc) in Hh.
      rewrite (held_resume _ _ _ Hn) in Hh.
      apply elem_of_app in Hh as [Hh|Hh]; [done|]. exact Hh.
  - rewrite Hreq. rewrite (resume_unfold _ _ _ _ _ Hn). fields.
    rewrite settle_batch_requests, settle_list_length. apply Hacc.
  - intros it Hit. rewrite Hreq. apply Hacc.
    rewrite (resume_unfold _ _ _ _ _ Hn) in Hit. cbn [cache batch promises awaiting invoked fst snd] in Hit.
    apply elem_of_app. apply elem_of_app in Hit as [Hit|Hit]; [by left|].
    right. by apply (elem_of_concat_delete n).
Qed.

Lemma accounted_fire e (this : loader) :
  wf this → enabled e this → accounted this → accounted (fire e this).
Proof.
  intros Hwf Hen Hacc. destruct e as [k|k| | |n c]; simpl.
  - by apply accounted_load.
  - by destruct Hacc.
  - by destruct Hacc.
  - by apply accounted_dispatch.
  - by apply accounted_resume.
Qed.

Lemma reachable_accounted (this : loader) : reachable this → accounted this.
Proof.
  induction 1 as [|e this Hreach IH Hen]; [apply accounted_create|].
  apply accounted_fire; [|done..]. by apply (reachable_wf stringify js_String).
Qed.

(** X8. The batch function is never called without keys: every key list
    passed to it so far is non-empty, and so is the one of a dispatch that
    is due. *)
Theorem batch_never_empty (this : loader) :
  reachable this →
  Forall (λ keys, keys ≠ []) (invoked this)
  ∧ (enabled Dispatch this → result dispatch this ≠ []).
Proof.
  intros Hreach. pose proof (reachable_accounted this Hreach) as Hacc.
  pose proof (reachable_wf _ _ _ Hreach) as Hwf.
  split; [apply Hacc|]. intros Hen Hnil. simpl in Hen.
  unfold result in Hnil. simpl in Hnil. apply fmap_nil_inv in Hnil.
  apply (acc_scheduled _ Hacc); [|done].
  rewrite (wf_microtasks _ Hwf) in Hen. by destruct (scheduled this).
Qed.

(** X9. A dispatch is due exactly when requests are queued, and never more
    than one: the number of queued dispatch callbacks is 1 when the queue
    is not empty and 0 when it is; after a dispatch the queue is empty and
    no dispatch is due until a [load] misses the cache again. *)
Theorem dispatch_due_iff_queued (this : loader) :
  reachable this →
  (enabled Dispatch this ↔ batch this ≠ [])
  ∧ microtasks this = (if decide (batch this = []) then 0 else 1)
  ∧ batch (fire Dispatch this) = []
  ∧ ¬ enabled Dispatch (fire Dispatch this)
  ∧ (∀ e, enabled Dispatch (fire e (fire Dispatch this)) →
          taken_up e (fire Dispatch this) ≠ []).
Proof.
  intros Hreach. pose proof (reachable_accounted this Hreach) as Hacc.
  pose proof (reachable_wf _ _ _ Hreach) as Hwf.
  pose proof (acc_scheduled _ Hacc) as Hsched.
  pose proof (wf_microtasks _ Hwf) as Hmicro.
  assert (microtasks this = (if decide (batch this = []) then 0 else 1)) as Hm.
  { rewrite Hmicro. destruct (decide (batch this = [])) as [Hnil|Hne].
    - destruct (scheduled this); [|done]. by destruct (proj1 Hsched).
    - by rewrite (proj2 Hsched Hne). }
  split; [|split; [done|split; [done|split]]].
  - simpl. rewrite Hm. by destruct (decide (batch this = [])).
  - simpl. rewrite Hmicro.
    destruct (scheduled this); simpl; intros Hne; by apply Hne.
  - intros e Hen.
    assert (microtasks (fire Dispatch this) = 0) as Hzero.
    { simpl. rewrite Hmicro. by destruct (scheduled this). }
    revert Hen. generalize dependent (fire Dispatch this). intros s Hzero.
    destruct e as [k|k| | |n c]; simpl.
    + unfold after. rewrite load_unfold.
      destruct (cache s !! stringify k); fields; [by rewrite Hzero|done].
    + by rewrite Hzero.
    + by rewrite Hzero.
    + by rewrite Hzero.
    + destruct (awaiting s !! n) as [currentBatch|] eqn:Hn.
      * rewrite (resume_unfold _ _ _ _ _ Hn). fields. by rewrite Hzero.
      * rewrite resume_idle by done. by rewrite Hzero.
Qed.

(** X10. No request is lost and none is settled behind the loader's back: a
    promise is pending exactly when the loader holds its settling
    functions, in the queue or in a dispatch that waits for the batch
    function. *)
Theorem pending_iff_held (this : loader) (h : handle) :
  reachable this →
  observe this h = Some Pending ↔ h ∈ held this.
Proof.
  intros Hreach. split.
  - apply (acc_pending _ (reachable_accounted this Hreach)).
  - apply (wf_held_pending _ (reachable_wf _ _ _ Hreach)).
Qed.

(** X11. The keys handed to the batch function, call after call, followed
    by the keys of the queue, are the keys of the [load]s that missed the
    cache, in the order of these loads: an event adds to them the key of a
    missing [load] at the end and nothing else, no event removes or repeats
    one, there is one promise for each of them, and the promise with handle
    [h] is the one made for the [h]-th of them. *)
Theorem requests_in_order (this : loader) :
  reachable this →
  (∀ e, requested (fire e this) = requested this ++ taken_up e this)
  ∧ length (requested this) = length (promises this)
  ∧ (∀ it, it ∈ batch this ++ concat (awaiting this) →
           requested this !! target it = Some (key it)).
Proof.
  intros Hreach. pose proof (reachable_accounted this Hreach) as Hacc.
  split; [|split].
  - intros e. apply requested_fire.
  - apply Hacc.
  - apply Hacc.
Qed.

(** X12. A promise settles once: whatever happens to the loader next,
    [clear] and [clearAll] included, a settled promise shows the same
    outcome. *)
Theorem settled_forever (this : loader) (h : handle) (q : promise D)
    (es : list event) :
  observe this h = Some q →
  settled q = true →
  observe (run es this) h = Some q.
Proof.
  intros Hq Hs. revert this Hq. induction es as [|e es IH]; intros this Hq.
  { done. }
  simpl. apply IH. destruct e as [k|k| | |n c]; simpl; try done.
  - unfold after. rewrite load_unfold.
    destruct (cache this !! stringify k); [done|].
    unfold observe in *. fields.
    rewrite lookup_app_l; [done|]. by apply lookup_lt_Some in Hq.
  - by apply resume_observe_settled.
Qed.

(** X13. When the batch function returns fewer results than it was given
    keys, the requests without a result slot are not left pending: each is
    fulfilled with [undefined]. *)
Theorem missing_slot_is_undefined (this : loader) (n i : nat)
    (currentBatch : list item) (results : list (value D)) (it : item) :
  reachable this →
  awaiting this !! n = Some currentBatch →
  currentBatch !! i = Some it →
  length results ≤ i →
  observe (after (resume n (Returned results)) this) (target it)
    = Some (Fulfilled Undefined).
Proof.
  intros Hreach Hn Hi Hshort.
  apply (resume_observe_in _ _ _ _ currentBatch);
    [by apply (reachable_wf stringify js_String)|done|].
  simpl. apply elem_of_lookup_imap. exists i, it.
  by rewrite (proj2 (lookup_ge_None results i) Hshort).
Qed.

(** *** Loads in a row *)

Local Abbreviation loadMany := (loadMany (D := D) stringify).
Local Abbreviation form := (form stringify).

(** X14. A run of loads whose keys are all cached is served from the cache
    alone: [loadMany] returns the cached handles, in the order of the keys,
    and leaves the loader exactly as it was (nothing queued, nothing
    scheduled). *)
Theorem loadMany_hits_change_nothing (this : loader) (keys : list K) :
  Forall (λ k, is_Some (cache this !! stringify k)) keys →
  after (loadMany keys) this = this
  ∧ Forall2 (λ k h, cache this !! stringify k = Some h)
            keys (result (loadMany keys) this).
Proof.
  unfold LoaderUse.loadMany. induction 1 as [|k keys [h Hk] _ IH].
  { split; [done|]. constructor. }
  destruct (loads_cons stringify k keys this) as [-> ->].
  assert (after (load k) this = this ∧ result (load k) this = h) as [-> ->].
  { unfold after, result. by rewrite (load_cached _ _ _ h Hk). }
  destruct IH as [IHs IHh]. split; [done|]. by constructor.
Qed.

Lemma loads_queue keys : ∀ this : loader,
  ∃ new,
    batch (after (loads keys) this) = batch this ++ new
    ∧ NoDup (form <$> new)
    ∧ (∀ it, it ∈ new → cache this !! form it = None)
    ∧ key <$> new `sublist_of` keys
    ∧ (∀ ck h, cache this !! ck = Some h →
               cache (after (loads keys) this) !! ck = Some h)
    ∧ Forall2 (λ k h, cache (after (loads keys) this) !! stringify k = Some h)
              keys (result (loads keys) this)
    ∧ (∀ ck, is_Some (cache (after (loads keys) this) !! ck) →
             is_Some (cache this !! ck) ∨ ck ∈ form <$> new).
Proof.
  induction keys as [|k keys IH]; intros this.
  { exists []. rewrite app_nil_r.
    split; [done|]. split; [constructor|].
    split; [by intros it Hit; apply elem_of_nil in Hit|].
    split; [constructor|]. split; [done|]. split; [constructor|].
    intros ck Hck. by left. }
  destruct (loads_cons stringify k keys this) as [-> ->].
  pose proof (load_unfold stringify k this) as Hload.
  destruct (cache this !! stringify k) as [h|] eqn:Hk.
  - assert (after (load k) this = this ∧ result (load k) this = h) as [-> ->].
    { unfold after, result. by rewrite Hload. }
    destruct (IH this) as (new & Ha & Hb & Hc & Hd & He & Hf & Hg).
    exists new. repeat split; try done.
    + by apply sublist_cons.
    + constructor; [by apply He|done].
  - set (s1 := {| cache := <[stringify k:=length (promises this)]> (cache this);
                 batch := batch this
                   ++ [{| key := k; target := length (promises this) |}];
                 scheduled := true;
                 promises := promises this ++ [Pending];
                 microtasks := if scheduled this then microtasks this
                               else S (microtasks this);
                 awaiting := awaiting this;
                 invoked := invoked this |}) in *.
    assert (after (load k) this = s1
            ∧ result (load k) this = length (promises this)) as [-> ->].
    { unfold after, result. by rewrite Hload. }
    destruct (IH s1) as (new & Ha & Hb & Hc & Hd & He & Hf & Hg).
    exists ({| key := k; target := length (promises this) |} :: new).
    repeat split.
    + rewrite Ha. simpl. by rewrite <- app_assoc.
    + rewrite fmap_cons. apply NoDup_cons. split; [|done].
      intros Hin. apply list_elem_of_fmap in Hin as (it & Hform & Hit).
      apply Hc in Hit. unfold LoaderUse.form in Hform, Hit.
      subst s1. simpl in Hit, Hform.
      rewrite <- Hform, lookup_insert_eq in Hit. done.
    + intros it Hit. apply elem_of_cons in Hit as [->|Hit]; [done|].
      apply Hc in Hit. subst s1. simpl in Hit.
      by apply lookup_insert_None in Hit as [? _].
    + rewrite fmap_cons. by apply sublist_skip.
    + intros ck h Hck. apply He. simpl.
      rewrite lookup_insert_ne; [done|]. intros <-. congruence.
    + constructor; [|done]. apply He. simpl. apply lookup_insert_eq.
    + intros ck Hck. apply Hg in Hck as [Hck|Hck].
      * simpl in Hck. destruct (decide (stringify k = ck)) as [<-|Hne].
        -- right. rewrite fmap_cons. by left.
        -- left. by rewrite lookup_insert_ne in Hck.
      * right. rewrite fmap_cons. by right.
Qed.

(** X15. However many times and in whatever order keys are loaded in a run
    of loads, the run adds to the queue exactly one request for each
    normalized key that was not cached before: the added requests have
    pairwise distinct normalized keys, none of which was cached; their keys
    appear in the order of the loads; every loaded key that was not cached
    has one; and afterwards every loaded key is cached with the handle its
    load returned. *)
Theorem one_request_per_form (this : loader) (keys : list K) :
  ∃ new,
    batch (after (loadMany keys) this) = batch this ++ new
    ∧ NoDup (form <$> new)
    ∧ (∀ it, it ∈ new → cache this !! form it = None)
    ∧ key <$> new `sublist_of` keys
    ∧ (∀ k, k ∈ keys → cache this !! stringify k = None →
            stringify k ∈ form <$> new)
    ∧ Forall2 (λ k h,
                 cache (after (loadMany keys) this) !! stringify k = Some h)
              keys (result (loadMany keys) this).
Proof.
  unfold LoaderUse.loadMany.
  destruct (loads_queue keys this) as (new & Ha & Hb & Hc & Hd & He & Hf & Hg).
  exists new. repeat split; try done.
  intros k Hk Hmiss.
  destruct (Hg (stringify k)) as [Hhit|Hin]; [|by rewrite Hmiss in Hhit; destruct Hhit|done].
  apply list_elem_of_lookup in Hk as [i Hi].
  destruct (Forall2_lookup_l _ _ _ _ _ Hf Hi) as (h & _ & Hh). by exists h.
Qed.

(** *** [loadMany] from the call to the result *)

Local Abbreviation loadMany_outcome := (loadMany_outcome (K := K) js_String).
Local Abbreviation caught := (caught js_String).
Local Abbreviation dispatched := (dispatched (K := K) js_String).

Lemma wf_loads keys (this : loader) : wf this → wf (after (loads keys) this).
Proof.
  revert this. induction keys as [|k keys IH]; intros this Hwf; [done|].
  destruct (loads_cons stringify k keys this) as [_ ->].
  by apply IH, wf_load.
Qed.

Lemma loads_fresh keys : ∀ this : loader,
  NoDup (stringify <$> keys) →
  Forall (λ k, cache this !! stringify k = None) keys →
  batch (after (loads keys) this)
    = batch this
        ++ zip_with (λ k h, {| key := k; target := h |})
                    keys (result (loads keys) this)
  ∧ length (result (loads keys) this) = length keys.
Proof.
  induction keys as [|k keys IH]; intros this Hnd Hmiss.
  { split; [|done]. simpl. by rewrite app_nil_r. }
  rewrite fmap_cons in Hnd. apply NoDup_cons in Hnd as [Hk Hnd].
  apply Forall_cons in Hmiss as [Hmiss Hrest].
  destruct (loads_cons stringify k keys this) as [-> ->].
  pose proof (load_unfold stringify k this) as Hload. rewrite Hmiss in Hload.
  set (s1 := {| cache := <[stringify k:=length (promises this)]> (cache this);
               batch := batch this
                 ++ [{| key := k; target := length (promises this) |}];
               scheduled := true;
               promises := promises this ++ [Pending];
               microtasks := if scheduled this then microtasks this
                             else S (microtasks this);
               awaiting := awaiting this;
               invoked := invoked this |}) in *.
  assert (after (load k) this = s1
          ∧ result (load k) this = length (promises this)) as [-> ->].
  { unfold after, result. by rewrite Hload. }
  destruct (IH s1 Hnd) as [Hbatch Hlen].
  { apply Forall_forall. intros k' Hk'. subst s1. simpl.
    rewrite lookup_insert_ne.
    - by apply (proj1 (Forall_forall _ _) Hrest).
    - intros Heq. apply Hk. rewrite Heq. apply list_elem_of_fmap. by exists k'. }
  split; [|simpl; by rewrite Hlen].
  rewrite Hbatch. subst s1. simpl. by rewrite <- app_assoc.
Qed.

(** What the whole dispatch does to the promises of the queue. *)
Lemma dispatched_observe_in c (this : loader) h p :
  wf this → (h, p) ∈ requests js_String c (batch this) →
  observe (dispatched c this) h = Some p.
Proof.
  intros Hwf Hin. unfold observe.
  rewrite dispatched_promises, settle_batch_requests.
  pose proof (wf_held_NoDup _ Hwf) as Hnd. unfold held in Hnd.
  rewrite fmap_app in Hnd. apply NoDup_app in Hnd as (Hnd & _ & _).
  apply settle_list_lookup_in; [by rewrite requests_targets| |done].
  rewrite requests_targets. intros h' Hh'. apply Hwf.
  unfold held. rewrite fmap_app. apply elem_of_app. by left.
Qed.

Lemma caught_slot_outcome (r : value D) :
  caught (slot_outcome r) = Some r.
Proof.
  unfold slot_outcome. destruct (instanceof_Error r) eqn:Hr; simpl; [|done].
  unfold as_Error. by rewrite Hr.
Qed.

Lemma caught_as_Error (error : value D) :
  caught (Rejected (as_Error js_String error))
    = Some (as_Error js_String error).
Proof.
  simpl. f_equal. unfold as_Error.
  destruct (instanceof_Error error) eqn:He; [by rewrite He | done].
Qed.

Lemma loadMany_outcome_Some hs (this : loader) vs :
  length hs = length vs →
  (∀ i h v, hs !! i = Some h → vs !! i = Some v →
            ∃ p, observe this h = Some p ∧ caught p = Some v) →
  loadMany_outcome hs this = Some vs.
Proof.
  intros Hlen Hall. unfold LoaderUse.loadMany_outcome, Promise_all.
  apply mapM_Some, Forall2_fmap_l.
  apply Forall2_same_length_lookup_2; [done|].
  intros i h v Hh Hv. destruct (Hall i h v Hh Hv) as (p & Hp & Hc).
  simpl. by rewrite Hp.
Qed.

(** X16. [loadMany] of keys with pairwise distinct normalized forms, none of
    them cached, on a loader whose queue is empty: the dispatch calls the
    batch function with exactly these keys, in order; until that call
    completes the promise of [loadMany] is pending; and when the call
    returns as many results as keys, [loadMany] is fulfilled with exactly
    the list the batch function returned, [Error] slots included: an error
    for one key is an element of the result, not a failure of the whole. *)
Theorem loadMany_returns_results (this : loader) (keys : list K)
    (results : list (value D)) :
  reachable this →
  batch this = [] →
  NoDup (stringify <$> keys) →
  Forall (λ k, cache this !! stringify k = None) keys →
  length results = length keys →
  result dispatch (after (loadMany keys) this) = keys
  ∧ (keys ≠ [] →
     loadMany_outcome (result (loadMany keys) this)
                      (after (loadMany keys) this) = None)
  ∧ loadMany_outcome (result (loadMany keys) this)
      (dispatched (Returned results) (after (loadMany keys) this))
      = Some results.
Proof.
  intros Hreach Hempty Hnd Hmiss Hlen. unfold LoaderUse.loadMany.
  pose proof (reachable_wf _ _ _ Hreach) as Hwf.
  pose proof (wf_loads keys this Hwf) as Hwf'.
  destruct (loads_fresh keys this Hnd Hmiss) as [Hbatch Hhs].
  rewrite Hempty in Hbatch. simpl in Hbatch.
  split; [|split].
  - change (result dispatch (after (loads keys) this))
      with (key <$> batch (after (loads keys) this)).
    rewrite Hbatch. apply fmap_zip_with_l; [done | lia].
  - intros Hne. destruct keys as [|k keys]; [done|].
    destruct (result (loads (k :: keys)) this) as [|h hs] eqn:Hres; [done|].
    cbn [zip_with] in Hbatch.
    assert (observe (after (loads (k :: keys)) this) h = Some Pending) as Hp.
    { apply Hwf'. unfold held. rewrite Hbatch. rewrite fmap_app, fmap_cons.
      apply elem_of_app. left. by left. }
    unfold LoaderUse.loadMany_outcome, Promise_all.
    rewrite fmap_cons, Hp. done.
  - apply loadMany_outcome_Some; [lia|].
    intros i h r Hh Hr.
    destruct (lookup_lt_is_Some_2 keys i) as [k Hk].
    { apply lookup_lt_Some in Hh. lia. }
    exists (slot_outcome r). split; [|apply caught_slot_outcome].
    apply dispatched_observe_in; [done|]. simpl.
    apply elem_of_lookup_imap. exists i, {| key := k; target := h |}.
    rewrite Hr, Hbatch. split; [done|].
    by rewrite lookup_zip_with, Hk, Hh.
Qed.

(** X17. Under the same conditions, when the call of the batch function
    throws, or rejects with, [error], [loadMany] is not rejected: it is
    fulfilled with one [Error] per key, each the thrown value if that is an
    instance of [Error] and [new Error(String(error))] otherwise. *)
Theorem loadMany_never_rejects (this : loader) (keys : list K)
    (error : value D) :
  reachable this →
  batch this = [] →
  NoDup (stringify <$> keys) →
  Forall (λ k, cache this !! stringify k = None) keys →
  loadMany_outcome (result (loadMany keys) this)
    (dispatched (Threw error) (after (loadMany keys) this))
    = Some (replicate (length keys) (as_Error js_String error)).
Proof.
  intros Hreach Hempty Hnd Hmiss. unfold LoaderUse.loadMany.
  pose proof (reachable_wf _ _ _ Hreach) as Hwf.
  pose proof (wf_loads keys this Hwf) as Hwf'.
  destruct (loads_fresh keys this Hnd Hmiss) as [Hbatch Hhs].
  rewrite Hempty in Hbatch. simpl in Hbatch.
  apply loadMany_outcome_Some; [by rewrite length_replicate|].
  intros i h v Hh Hv. apply lookup_replicate in Hv as [-> Hi].
  destruct (lookup_lt_is_Some_2 keys i Hi) as [k Hk].
  exists (Rejected (as_Error js_String error)).
  split; [|apply caught_as_Error].
  apply dispatched_observe_in; [done|]. simpl.
  apply list_elem_of_fmap. exists {| key := k; target := h |}.
  split; [done|]. rewrite Hbatch.
  apply list_elem_of_lookup. exists i. by rewrite lookup_zip_with, Hk, Hh.
Qed.

End LoaderMore.

(** *** On the loader over numeric keys *)

Local Ltac evaluate := vm_compute; first [reflexivity | discriminate].
Local Ltac can_run := vm_compute; repeat split; first [discriminate | lia].

Lemma batch_never_empty_witness :
  Forall (λ keys : list nat, keys ≠ []) (invoked three_dispatched).
Proof.
  apply (batch_never_empty number_key demo_String three_dispatched).
  apply demo_run_reachable. can_run.
Defined.

Lemma dispatch_due_iff_queued_witness :
  enabled Dispatch three_loaded ↔ batch three_loaded ≠ [].
Proof.
  apply (dispatch_due_iff_queued number_key demo_String three_loaded).
  apply demo_run_reachable. can_run.
Defined.

Lemma pending_iff_held_witness :
  observe three_dispatched 1 = Some Pending ↔ 1 ∈ held three_dispatched.
Proof.
  apply (pending_iff_held number_key demo_String three_dispatched 1).
  apply demo_run_reachable. can_run.
Defined.

Lemma requests_in_order_witness :
  length (requested three_dispatched) = length (promises three_dispatched).
Proof.
  apply (requests_in_order number_key demo_String three_dispatched).
  apply demo_run_reachable. can_run.
Defined.

Lemma settled_forever_witness :
  observe (run number_key demo_String [ClearAll; Load 1; Dispatch] failed_one) 0
    = Some (Rejected (Error "down")).
Proof.
  apply (settled_forever number_key demo_String failed_one 0
           (Rejected (Error "down")) [ClearAll; Load 1; Dispatch]).
  - evaluate.
  - reflexivity.
Defined.

Lemma loadMany_hits_change_nothing_witness :
  after (loadMany number_key [2; 1; 2]) three_loaded = three_loaded.
Proof.
  apply (loadMany_hits_change_nothing number_key three_loaded [2; 1; 2]).
  repeat (constructor; [eexists; evaluate|]). constructor.
Defined.

Lemma loadMany_returns_results_witness :
  loadMany_outcome demo_String
    (result (loadMany number_key [1; 2; 3]) (demo_run []))
    (dispatched demo_String (Returned [Data "valueA"; Error "x"; Null])
       (after (loadMany number_key [1; 2; 3]) (demo_run [])))
    = Some [Data "valueA"; Error "x"; Null].
Proof.
  apply (loadMany_returns_results number_key demo_String (demo_run [])
           [1; 2; 3] [Data "valueA"; Error "x"; Null]).
  - apply demo_run_reachable. exact I.
  - reflexivity.
  - apply (bool_decide_unpack (NoDup (number_key <$> [1; 2; 3]))).
    vm_compute. exact I.
  - repeat (constructor; [evaluate|]). constructor.
  - reflexivity.
Defined.

Lemma loadMany_never_rejects_witness :
  loadMany_outcome demo_String
    (result (loadMany number_key [1; 2; 3]) (demo_run []))
    (dispatched demo_String (Threw (Str "boom"))
       (after (loadMany number_key [1; 2; 3]) (demo_run [])))
    = Some [Error "boom"; Error "boom"; Error "boom"].
Proof.
  apply (loadMany_never_rejects number_key demo_String (demo_run [])
           [1; 2; 3] (Str "boom")).
  - apply demo_run_reachable. exact I.
  - reflexivity.
  - apply (bool_decide_unpack (NoDup (number_key <$> [1; 2; 3]))).
    vm_compute. exact I.
  - repeat (constructor; [evaluate|]). constructor.
Defined.

Lemma missing_slot_is_undefined_witness :
  observe (after (resume demo_String 0 (Returned [Data "valueA"]))
                 three_dispatched) 2
    = Some (Fulfilled Undefined).
Proof.
  apply (missing_slot_is_undefined number_key demo_String three_dispatched
           0 2 three_items [Data "valueA"] {| key := 3; target := 2 |}).
  - apply demo_run_reachable. can_run.
  - evaluate.
  - reflexivity.
  - simpl. lia.
Defined.

End LoaderMore.

(** ** The store and the loaders of [createDataLoaders] *)

Module StoreFacts.
Import Loader LoaderUse LoaderFacts Store.

Local Ltac evaluate := vm_compute; first [reflexivity | discriminate].
Local Ltac can_run := vm_compute; repeat split; first [discriminate | lia].

(** *** Sorting by [createdAt] *)

Lemma insert_by_createdAt_perm c l : insert_by_createdAt c l ≡ₚ c :: l.
Proof.
  induction l as [|c' l IH]; [done|]. simpl.
  destruct (createdAt c <=? createdAt c')%Z; [done|].
  by rewrite IH, Permutation_swap.
Qed.

Lemma sort_by_createdAt_perm l : sort_by_createdAt l ≡ₚ l.
Proof.
  induction l as [|c l IH]; [done|]. simpl.
  by rewrite insert_by_createdAt_perm, IH.
Qed.

Lemma insert_by_createdAt_sorted c l :
  StronglySorted not_later l →
  StronglySorted not_later (insert_by_createdAt c l).
Proof.
  induction 1 as [|c' l Hsorted IH Hhead]; simpl.
  { repeat constructor. }
  destruct (Z.leb_spec (createdAt c) (createdAt c')) as [Hle|Hlt].
  - constructor; [by constructor|]. constructor; [done|].
    apply (Forall_impl _ _ _ Hhead). unfold not_later. intros x Hx. lia.
  - constructor; [done|]. rewrite insert_by_createdAt_perm.
    constructor; [|done]. unfold not_later. lia.
Qed.

Lemma sort_by_createdAt_sorted l :
  StronglySorted not_later (sort_by_createdAt l).
Proof.
  induction l as [|c l IH]; [constructor|].
  by apply insert_by_createdAt_sorted.
Qed.

(** X18. [getCommentsByPost] returns the comments of that post and no
    others, each stored comment of the post once, the oldest first. *)
Theorem getCommentsByPost_sorted (db : InMemoryDB) (id : string) :
  Forall (λ c, postId c = id) (getCommentsByPost id db)
  ∧ getCommentsByPost id db
      ≡ₚ filter (λ c, postId c = id) (Map_values (comments db))
  ∧ StronglySorted not_later (getCommentsByPost id db).
Proof.
  unfold getCommentsByPost. split; [|split].
  - rewrite sort_by_createdAt_perm. apply Forall_forall.
    intros c Hc. by apply list_elem_of_filter in Hc as [? _].
  - apply sort_by_createdAt_perm.
  - apply sort_by_createdAt_sorted.
Qed.

(** *** The batch function of [commentsByPostLoader] *)

Lemma foldl_insert_lookup (g : string → list Comment) (postIds : list string)
    (acc : gmap string (list Comment)) (id : string) :
  foldl (λ result p, <[p := g p]> result) acc postIds !! id
    = if decide (id ∈ postIds) then Some (g id) else acc !! id.
Proof.
  revert acc. induction postIds as [|p postIds IH]; intros acc; simpl.
  { destruct (decide (id ∈ [])) as [Hin|_]; [|done]. by apply elem_of_nil in Hin. }
  rewrite IH.
  destruct (decide (id ∈ postIds)) as [Hin|Hout].
  - destruct (decide (id ∈ p :: postIds)) as [_|Hout]; [done|].
    destruct Hout. by right.
  - destruct (decide (id = p)) as [->|Hne].
    + rewrite lookup_insert_eq.
      destruct (decide (p ∈ p :: postIds)) as [_|Hout']; [done|].
      destruct Hout'. by left.
    + rewrite lookup_insert_ne by done.
      destruct (decide (id ∈ p :: postIds)) as [Hin|_]; [|done].
      by apply elem_of_cons in Hin as [?|?].
Qed.

Lemma getCommentsByPostIds_lookup postIds db id :
  getCommentsByPostIds postIds db !! id
    = if decide (id ∈ postIds) then Some (getCommentsByPost id db) else None.
Proof.
  unfold getCommentsByPostIds.
  by rewrite (foldl_insert_lookup (λ p, getCommentsByPost p db)), lookup_empty.
Qed.

(** X19. The batch function of [commentsByPostLoader] returns, for the post
    ids it is given, a list of the same length whose slot [i] is the list
    of the comments of [postIds[i]], the oldest first; a post without
    comments, stored or not, gets the empty list; the fall-back [?? []] is
    never taken, and no slot is an [Error]. *)
Theorem commentsByPostLoader_batchFn_aligned (db : InMemoryDB)
    (postIds : list string) :
  commentsByPostLoader_batchFn db postIds
    = Returned ((λ id, Data (getCommentsByPost id db)) <$> postIds)
  ∧ (∀ id, Forall (λ c, postId c ≠ id) (Map_values (comments db)) →
           getCommentsByPost id db = []).
Proof.
  split.
  - unfold commentsByPostLoader_batchFn. f_equal.
    apply list_fmap_ext. intros i id Hid.
    rewrite getCommentsByPostIds_lookup.
    destruct (decide (id ∈ postIds)) as [_|Hout]; [done|].
    destruct Hout. by apply list_elem_of_lookup_2 in Hid.
  - intros id Hnone. unfold getCommentsByPost.
    replace (filter (λ c, postId c = id) (Map_values (comments db)))
      with (@nil Comment); [done|].
    symmetry. induction Hnone as [|c l Hc _ IH]; [done|].
    by rewrite filter_cons_False.
Qed.

(** *** The loaders of [createDataLoaders], from the store to the caller *)

Lemma resume_with_values {D} (js_String : value D → string)
    (this : loader string D) n currentBatch (f : string → value D) it :
  wf this → awaiting this !! n = Some currentBatch →
  (∀ k, instanceof_Error (f k) = false) →
  it ∈ currentBatch →
  observe (after (resume js_String n (Returned (f <$> (key <$> currentBatch))))
                 this) (target it)
    = Some (Fulfilled (f (key it))).
Proof.
  intros Hwf Hn Hf Hit.
  apply (resume_observe_in _ _ _ _ currentBatch); [done..|].
  apply list_elem_of_lookup in Hit as [i Hi].
  simpl. apply elem_of_lookup_imap. exists i, it. split; [|done].
  rewrite !list_lookup_fmap, Hi. simpl.
  unfold slot_outcome. by rewrite Hf.
Qed.

(** X20. Through [userLoader], a request never fails: when the dispatch
    completes, the handle of a request for [id] is fulfilled with the user
    stored under [id], without the [passwordHash], or with [null] when no
    user has that id. *)
Theorem userLoader_resolves (stringify : string → string)
    (js_String : value User → string) (this : loader string User) (n : nat)
    (currentBatch : list (item string)) (db : InMemoryDB) (it : item string) :
  reachable stringify js_String this →
  awaiting this !! n = Some currentBatch →
  it ∈ currentBatch →
  observe (after (resume js_String n
                    (userLoader_batchFn db (key <$> currentBatch))) this)
          (target it)
    = Some (Fulfilled (nullable (profile <$> users db !! key it))).
Proof.
  intros Hreach Hn Hit.
  assert (userLoader_batchFn db (key <$> currentBatch)
          = Returned ((λ id, nullable (profile <$> users db !! id))
                        <$> (key <$> currentBatch))) as ->.
  { unfold userLoader_batchFn, findUsersByIds. f_equal.
    rewrite <- list_fmap_compose. apply list_fmap_ext. intros i id _. simpl.
    by destruct (users db !! id). }
  apply (resume_with_values js_String this n currentBatch
           (λ id, nullable (profile <$> users db !! id)) it);
    [by apply (reachable_wf stringify js_String)|done| |done].
  intros k. by destruct (users db !! k).
Qed.

(** X21. Through [postLoader], likewise: the handle of a request for [id]
    is fulfilled with the post stored under [id], or with [null] when there
    is none, and is never rejected. *)
Theorem postLoader_resolves (stringify : string → string)
    (js_String : value Post → string) (this : loader string Post) (n : nat)
    (currentBatch : list (item string)) (db : InMemoryDB) (it : item string) :
  reachable stringify js_String this →
  awaiting this !! n = Some currentBatch →
  it ∈ currentBatch →
  observe (after (resume js_String n
                    (postLoader_batchFn db (key <$> currentBatch))) this)
          (target it)
    = Some (Fulfilled (nullable (posts db !! key it))).
Proof.
  intros Hreach Hn Hit.
  assert (postLoader_batchFn db (key <$> currentBatch)
          = Returned ((λ id, nullable (posts db !! id))
                        <$> (key <$> currentBatch))) as ->.
  { unfold postLoader_batchFn, findPostsByIds. f_equal.
    by rewrite <- list_fmap_compose. }
  apply (resume_with_values js_String this n currentBatch
           (λ id, nullable (posts db !! id)) it);
    [by apply (reachable_wf stringify js_String)|done| |done].
  intros k. by destruct (posts db !! k).
Qed.

(** X22. Through [commentsByPostLoader]: the handle of a request for
    [postId] is fulfilled with the comments of that post, the oldest
    first (the empty list when it has none), and is never rejected. *)
Theorem commentsByPostLoader_resolves (stringify : string → string)
    (js_String : value (list Comment) → string)
    (this : loader string (list Comment)) (n : nat)
    (currentBatch : list (item string)) (db : InMemoryDB) (it : item string) :
  reachable stringify js_String this →
  awaiting this !! n = Some currentBatch →
  it ∈ currentBatch →
  observe (after (resume js_String n
                    (commentsByPostLoader_batchFn db (key <$> currentBatch)))
                 this)
          (target it)
    = Some (Fulfilled (Data (getCommentsByPost (key it) db))).
Proof.
  intros Hreach Hn Hit.
  assert (commentsByPostLoader_batchFn db (key <$> currentBatch)
          = Returned ((λ id, Data (getCommentsByPost id db))
                        <$> (key <$> currentBatch))) as ->.
  { unfold commentsByPostLoader_batchFn. f_equal.
    apply list_fmap_ext. intros i id Hid.
    rewrite getCommentsByPostIds_lookup.
    destruct (decide (id ∈ key <$> currentBatch)) as [_|Hout]; [done|].
    destruct Hout. by apply list_elem_of_lookup_2 in Hid. }
  by apply (resume_with_values js_String this n currentBatch
              (λ id, Data (getCommentsByPost id db)) it);
    [apply (reachable_wf stringify js_String)| | |].
Qed.

(** *** [deletePost] *)

Lemma filter_agree {A} (P Q : A → Prop) `{∀ x, Decision (P x)}
    `{∀ x, Decision (Q x)} (l : list A) :
  (∀ x, x ∈ l → P x ↔ Q x) → filter P l = filter Q l.
Proof.
  induction l as [|x l IH]; intros Hagree; [done|].
  rewrite !filter_cons.
  destruct (decide (P x)) as [HP|HP], (decide (Q x)) as [HQ|HQ].
  - f_equal. apply IH. intros y Hy. apply Hagree. by right.
  - destruct HQ. apply Hagree; [by left|done].
  - destruct HP. apply Hagree; [by left|done].
  - apply IH. intros y Hy. apply Hagree. by right.
Qed.

Lemma NoDup_keys_agree {V} (m : list (string * V)) kv kv' :
  NoDup m.*1 → kv ∈ m → kv' ∈ m → kv.1 = kv'.1 → kv = kv'.
Proof.
  induction m as [|e m IH]; intros Hnd Hin Hin' Heq.
  { by apply elem_of_nil in Hin. }
  rewrite fmap_cons in Hnd. apply NoDup_cons in Hnd as [Hout Hnd].
  apply elem_of_cons in Hin as [->|Hin], Hin' as [->|Hin'].
  - done.
  - destruct Hout. rewrite Heq. apply list_elem_of_fmap. by exists kv'.
  - destruct Hout. rewrite <- Heq. apply list_elem_of_fmap. by exists kv.
  - by apply IH.
Qed.

(** The loop of [deletePost], whatever it is run on. *)
Lemma deletePost_loop id (entries acc : list (string * Comment)) :
  foldl (λ m entry,
           if decide (postId entry.2 = id) then Map_delete entry.1 m else m)
        acc entries
    = filter (λ kv, kv.1 ∉ (filter (λ kv', postId kv'.2 = id) entries).*1) acc.
Proof.
  revert acc. induction entries as [|e entries IH]; intros acc; simpl.
  { symmetry. induction acc as [|kv acc IHacc]; [done|].
    rewrite filter_cons_True; [by f_equal|]. apply not_elem_of_nil. }
  rewrite IH, filter_cons.
  destruct (decide (postId e.2 = id)) as [He|He]; [|done].
  unfold Map_delete. rewrite list_filter_filter. apply filter_agree.
  intros kv _. rewrite fmap_cons, not_elem_of_cons. tauto.
Qed.

Lemma own_comments_after_delete id (m : list (string * Comment)) :
  filter (λ c, postId c = id) (filter (λ kv, postId kv.2 ≠ id) m).*2 = [].
Proof.
  induction m as [|kv m IH]; [done|].
  rewrite filter_cons. destruct (decide (postId kv.2 ≠ id)) as [Hne|_]; [|done].
  by rewrite fmap_cons, filter_cons_False.
Qed.

Lemma other_comments_after_delete id other (m : list (string * Comment)) :
  other ≠ id →
  filter (λ c, postId c = other) (filter (λ kv, postId kv.2 ≠ id) m).*2
    = filter (λ c, postId c = other) m.*2.
Proof.
  intros Hother. induction m as [|kv m IH]; [done|].
  rewrite filter_cons, !fmap_cons.
  destruct (decide (postId kv.2 ≠ id)) as [Hne|Heq].
  - by rewrite fmap_cons, !filter_cons, IH.
  - rewrite IH. rewrite filter_cons_False; [done|].
    intros Hpost. apply Heq. congruence.
Qed.

(** X23. [deletePost id] deletes the comments of the post with it, and
    nothing else: afterwards [getCommentsByPost id] is empty, the comments
    of every other post are as before, in the same order, the post is gone
    from [posts], the users are untouched, and the answer tells whether the
    post was stored. The comments of the post are deleted even when the
    post itself is not stored. *)
Theorem deletePost_cascades (db : InMemoryDB) (id : string) :
  NoDup (comments db).*1 →
  comments (after (deletePost id) db)
    = filter (λ kv, postId kv.2 ≠ id) (comments db)
  ∧ getCommentsByPost id (after (deletePost id) db) = []
  ∧ (∀ other, other ≠ id →
       getCommentsByPost other (after (deletePost id) db)
         = getCommentsByPost other db)
  ∧ posts (after (deletePost id) db) = delete id (posts db)
  ∧ users (after (deletePost id) db) = users db
  ∧ result (deletePost id) db = bool_decide (is_Some (posts db !! id)).
Proof.
  intros Hnd.
  assert (comments (after (deletePost id) db)
          = filter (λ kv, postId kv.2 ≠ id) (comments db)) as Hcomments.
  { unfold after, deletePost, set_comments, set_posts.
    unfold mbind, method_bind, mret, method_mret, get, put. simpl.
    rewrite deletePost_loop. apply filter_agree. intros kv Hkv. split.
    - intros Hout Hpost. apply Hout. apply list_elem_of_fmap. exists kv.
      split; [done|]. by apply list_elem_of_filter.
    - intros Hpost Hin. apply list_elem_of_fmap in Hin as (kv' & Hkey & Hkv').
      apply list_elem_of_filter in Hkv' as [Hpost' Hkv'].
      by rewrite (NoDup_keys_agree _ kv kv' Hnd Hkv Hkv' Hkey) in Hpost. }
  split; [done|]. split; [|split; [|by repeat split]].
  - unfold getCommentsByPost, Map_values.
    by rewrite Hcomments, own_comments_after_delete.
  - intros other Hother. unfold getCommentsByPost, Map_values.
    by rewrite Hcomments, other_comments_after_delete.
Qed.

(** *** On the store of the server *)

Local Ltac asked_reachable :=
  unfold asked; apply reachable_run; [apply reachable_create | can_run].

Lemma commentsByPostLoader_batchFn_aligned_witness :
  commentsByPostLoader_batchFn discussed ["id_4"; "id_6"; "id_5"; "id_4"]
    = Returned [Data (getCommentsByPost "id_4" discussed); Data [];
                Data (getCommentsByPost "id_5" discussed);
                Data (getCommentsByPost "id_4" discussed)].
Proof.
  destruct (commentsByPostLoader_batchFn_aligned discussed
              ["id_4"; "id_6"; "id_5"; "id_4"]) as [Hslots Hnone].
  rewrite Hslots. simpl. rewrite (Hnone "id_6"); [done|].
  repeat (constructor; [evaluate|]). constructor.
Defined.

Lemma userLoader_resolves_witness :
  observe (after (resume plain_String 0
                    (userLoader_batchFn seeded (key <$> asked_items "id_2")))
                 (asked User "id_2")) 0
    = Some (Fulfilled (nullable (profile <$> users seeded !! "id_2")))
  ∧ observe (after (resume plain_String 0
                      (userLoader_batchFn seeded (key <$> asked_items "id_2")))
                   (asked User "id_2")) 1
      = Some (Fulfilled Null).
Proof.
  split.
  - apply (userLoader_resolves quoted plain_String (asked User "id_2") 0
             (asked_items "id_2") seeded {| key := "id_2"; target := 0 |}).
    + asked_reachable.
    + evaluate.
    + by left.
  - apply (userLoader_resolves quoted plain_String (asked User "id_2") 0
             (asked_items "id_2") seeded {| key := "id_404"; target := 1 |}).
    + asked_reachable.
    + evaluate.
    + right. by left.
Defined.

Lemma postLoader_resolves_witness :
  observe (after (resume plain_String 0
                    (postLoader_batchFn seeded (key <$> asked_items "id_4")))
                 (asked Post "id_4")) 0
    = Some (Fulfilled (nullable (posts seeded !! "id_4"))).
Proof.
  apply (postLoader_resolves quoted plain_String (asked Post "id_4") 0
           (asked_items "id_4") seeded {| key := "id_4"; target := 0 |}).
  - asked_reachable.
  - evaluate.
  - by left.
Defined.

Lemma commentsByPostLoader_resolves_witness :
  observe (after (resume plain_String 0
                    (commentsByPostLoader_batchFn discussed
                       (key <$> asked_items "id_4")))
                 (asked (list Comment) "id_4")) 0
    = Some (Fulfilled (Data (getCommentsByPost "id_4" discussed))).
Proof.
  apply (commentsByPostLoader_resolves quoted plain_String
           (asked (list Comment) "id_4") 0 (asked_items "id_4") discussed
           {| key := "id_4"; target := 0 |}).
  - asked_reachable.
  - evaluate.
  - by left.
Defined.

Lemma deletePost_cascades_witness :
  getCommentsByPost "id_4" (after (deletePost "id_4") discussed) = []
  ∧ getCommentsByPost "id_5" (after (deletePost "id_4") discussed)
      = getCommentsByPost "id_5" discussed.
Proof.
  destruct (deletePost_cascades discussed "id_4") as (_ & Hown & Hother & _).
  - apply (bool_decide_unpack (NoDup (comments discussed).*1)).
    vm_compute. exact I.
  - split; [exact Hown|]. apply Hother. discriminate.
Defined.

End StoreFacts.
